(** * SPECTRE dataset loader: a shallow embedding of [spectre/utils.py] and
    [spectre/dataset.py], and the properties of its indexing, cleaning,
    caching and iteration.

    Conventions of the model.
    - A numpy array is the list of its elements in row-major order
      ([ndarray]); a frame (2-D) and a spectrum (1-D) share this type.
      Element-wise operators follow numpy's rule for 1-D operands: equal
      lengths, or one operand of length one (which also stands for the 0-d
      array that [np.squeeze] returns for a single value), anything else
      raises [ValueError].
    - A float64 is idealised as an exact rational ([Q]); rounding error,
      infinities and signed zeros are not represented.  The one nan the
      control flow can meet, the mean of an empty array, is kept as [None].
      Where [white = dark] numpy divides by zero; the model's quotient is
      [Qdiv]'s, and every statement that reads the quotient assumes
      [dark < white].
    - The operating system is a [World]: a finite map from the path strings
      the program builds to file-system nodes, an oracle for refused
      creations, the pending output of numpy's global generator, and the
      trace of the calls made so far.  Paths are compared as strings. *)

From Stdlib Require Import QArith Qminmax Qround Lqa.
From stdpp Require Import gmap strings list fin_maps pretty.

Local Open Scope Q_scope.

(** ** Python exceptions and results *)

Inductive exn : Type :=
  | StopIteration
  | FileNotFoundError
  | FileExistsError
  | IsADirectoryError
  | NotADirectoryError
  | PermissionError
  | UnpicklingError
  | ValueError
  | KeyError
  | IndexError.

#[global] Instance exn_eq_dec : EqDecision exn.
Proof. solve_decision. Defined.

Inductive result (A : Type) : Type :=
  | Ok (a : A)
  | Raise (e : exn).
Arguments Ok {A} a.
Arguments Raise {A} e.

Definition rbind {A B} (r : result A) (k : A -> result B) : result B :=
  match r with
  | Ok a => k a
  | Raise e => Raise e
  end.

Notation "'let?' x ':=' c 'in' k" := (rbind c (fun x => k))
  (at level 10, x name, c at level 100, k at level 200).

(** ** numpy arrays *)

Abbreviation ndarray := (list Q).

(** [utils.EPSILON = 1e-8] *)
Definition EPSILON : Q := 1 # 100000000.

Definition Qltb (x y : Q) : bool := negb (Qle_bool y x).

(** Binary ufunc on two arrays, with numpy's broadcasting for 1-D shapes. *)
Definition broadcast (f : Q -> Q -> Q) (a b : ndarray) : result ndarray :=
  if Nat.eqb (length a) (length b) then Ok (zip_with f a b)
  else match a, b with
       | [x], _ => Ok (map (f x) b)
       | _, [y] => Ok (map (fun x => f x y) a)
       | _, _ => Raise ValueError
       end.

Definition np_sub : ndarray -> ndarray -> result ndarray := broadcast Qminus.
Definition np_div : ndarray -> ndarray -> result ndarray := broadcast Qdiv.
Definition np_mul : ndarray -> ndarray -> result ndarray := broadcast Qmult.

(** [np.clip(a, a_min, a_max)] is [np.minimum(a_max, np.maximum(a, a_min))];
    a bound given as [None] is not applied. *)
Definition clip1 (a_min a_max : option Q) (x : Q) : Q :=
  let lo := match a_min with Some m => Qmax x m | None => x end in
  match a_max with Some m => Qmin m lo | None => lo end.

Definition np_clip (a : ndarray) (a_min a_max : option Q) : ndarray :=
  map (clip1 a_min a_max) a.

Definition Qsum (a : list Q) : Q := fold_right Qplus 0 a.

(** [np.mean]: the sum over the number of elements; nan ([None]) on an
    empty array. *)
Definition np_mean (a : ndarray) : option Q :=
  match a with
  | [] => None
  | _ => Some (Qsum a / inject_Z (Z.of_nat (length a)))
  end.

(** [m < t] on floats: false as soon as [m] is nan. *)
Definition float_lt (m : option Q) (t : Q) : bool :=
  match m with
  | Some q => Qltb q t
  | None => false
  end.

(** ** utils.normalize_array *)

Definition normalize_array (array dark white : ndarray) : result ndarray :=
  let? num := np_sub array dark in
  let? den := np_sub white dark in
  let? quo := np_div num den in
  Ok (np_clip quo (Some EPSILON) (Some 1)).

(** ** Paths *)

Local Open Scope string_scope.

Definition startswith (s p : string) : bool := String.prefix p s.
Definition endswith (s p : string) : bool :=
  String.prefix (String.rev p) (String.rev s).

(** [os.path.join(a, b)] of [posixpath]. *)
Definition os_path_join (a b : string) : string :=
  if startswith b "/" then b
  else if String.eqb a "" || endswith a "/" then a +:+ b
  else a +:+ "/" +:+ b.

(** ** The world outside the interpreter *)

(** A sample descriptor, the tuple [(path_a, path_b)] whose second slot is
    [None] for a sample that is not augmented. *)
Abbreviation descriptor := (string * option string)%type.

(** A parsed [spectrum.csv]: one [(wavelengths, Intensity)] pair per row,
    the frame that [pd.read_csv(..., usecols=["Intensity", "wavelengths"],
    index_col="wavelengths")] returns. *)
Abbreviation DataFrame := (list (Q * Q)).

Inductive node : Type :=
  | Dir (names : list string)
  | Npy (a : ndarray)
  | Csv (rows : DataFrame)
  | Pickle (obj : list descriptor)
  | Blob.

Inductive event : Type :=
  | call_listdir (p : string)
  | call_np_load (p : string)
  | call_read_csv (p : string)
  | call_exists (p : string)
  | call_mkdir (p : string)
  | call_pickle_load (p : string)
  | call_pickle_dump (p : string)
  | call_shuffle (n : nat)
  | call_print (msg : string).

Record World : Type := mkWorld {
  fs : gmap string node;
  (** creations the operating system refuses (missing or non-directory
      parent, permissions, read-only medium) *)
  denied : string -> bool;
  (** pending raw outputs of numpy's global generator *)
  rng : list nat;
  (** calls made so far, oldest first *)
  trace : list event
}.

Definition set_fs (f : gmap string node) (w : World) : World :=
  mkWorld f (denied w) (rng w) (trace w).
Definition set_rng (r : list nat) (w : World) : World :=
  mkWorld (fs w) (denied w) r (trace w).
Definition log (e : event) (w : World) : World :=
  mkWorld (fs w) (denied w) (rng w) (trace w ++ [e]).

(** ** State and exceptions

    A computation reads and writes a state and either returns or raises;
    what it wrote before raising stays written. *)

Definition M (S A : Type) : Type := S -> result A * S.

Definition ret {S A} (a : A) : M S A := fun s => (Ok a, s).
Definition raise {S A} (e : exn) : M S A := fun s => (Raise e, s).
Definition bind {S A B} (c : M S A) (k : A -> M S B) : M S B :=
  fun s => match c s with
           | (Ok a, s') => k a s'
           | (Raise e, s') => (Raise e, s')
           end.
Definition gets {S A} (f : S -> A) : M S A := fun s => (Ok (f s), s).
Definition modify {S} (f : S -> S) : M S unit := fun s => (Ok tt, f s).
Definition lift {S A} (r : result A) : M S A := fun s => (r, s).

(** [try: c except e: pass] *)
Definition try_except_pass {S} (c : M S unit) (e : exn) : M S unit :=
  fun s => match c s with
           | (Raise e', s') => if decide (e' = e) then (Ok tt, s') else (Raise e', s')
           | r => r
           end.

Declare Scope py_scope.
Delimit Scope py_scope with py.
Notation "x <- c ;; k" := (bind c (fun x => k))
  (at level 20, c at level 99, k at level 200) : py_scope.
Notation "' pat <- c ;; k" := (bind c (fun x => match x with pat => k end))
  (at level 20, pat pattern, c at level 99, k at level 200) : py_scope.
Notation "c ;; k" := (bind c (fun _ => k))
  (at level 100, k at level 200, right associativity) : py_scope.
Local Open Scope py_scope.

(** ** The library calls the program makes *)

Definition print (msg : string) : M World unit :=
  modify (log (call_print msg)).

Definition os_listdir (p : string) : M World (list string) :=
  modify (log (call_listdir p)) ;;
  n <- gets (fun w => fs w !! p) ;;
  match n with
  | Some (Dir names) => ret names
  | Some _ => raise NotADirectoryError
  | None => raise FileNotFoundError
  end.

Definition os_path_exists (p : string) : M World bool :=
  modify (log (call_exists p)) ;;
  n <- gets (fun w => fs w !! p) ;;
  ret (bool_decide (is_Some n)).

(** [os.mkdir(p)]; [PermissionError] stands for every refusal other than
    [FileExistsError]. *)
Definition os_mkdir (p : string) : M World unit :=
  modify (log (call_mkdir p)) ;;
  n <- gets (fun w => fs w !! p) ;;
  no <- gets (fun w => denied w p) ;;
  match n with
  | Some _ => raise FileExistsError
  | None => if no : bool then raise PermissionError
            else modify (fun w => set_fs (<[p := Dir []]> (fs w)) w)
  end.

Definition np_load (p : string) : M World ndarray :=
  modify (log (call_np_load p)) ;;
  n <- gets (fun w => fs w !! p) ;;
  match n with
  | Some (Npy a) => ret a
  | Some (Dir _) => raise IsADirectoryError
  | Some _ => raise ValueError
  | None => raise FileNotFoundError
  end.

Definition pd_read_csv (p : string) : M World DataFrame :=
  modify (log (call_read_csv p)) ;;
  n <- gets (fun w => fs w !! p) ;;
  match n with
  | Some (Csv rows) => ret rows
  | Some (Dir _) => raise IsADirectoryError
  | Some _ => raise ValueError
  | None => raise FileNotFoundError
  end.

(** [with open(p, "rb") as f: pickle.load(f)]; a file that holds anything
    but a pickled index is taken to fail to unpickle. *)
Definition pickle_load (p : string) : M World (list descriptor) :=
  modify (log (call_pickle_load p)) ;;
  n <- gets (fun w => fs w !! p) ;;
  match n with
  | Some (Pickle obj) => ret obj
  | Some (Dir _) => raise IsADirectoryError
  | Some _ => raise UnpicklingError
  | None => raise FileNotFoundError
  end.

(** [with open(p, "wb") as f: pickle.dump(obj, f, pickle.HIGHEST_PROTOCOL)] *)
Definition pickle_dump (obj : list descriptor) (p : string) : M World unit :=
  modify (log (call_pickle_dump p)) ;;
  n <- gets (fun w => fs w !! p) ;;
  no <- gets (fun w => denied w p) ;;
  match n with
  | Some (Dir _) => raise IsADirectoryError
  | _ => if no : bool then raise PermissionError
         else modify (fun w => set_fs (<[p := Pickle obj]> (fs w)) w)
  end.

(** numpy's [random_interval(max)]: one draw of the generator, reduced to
    [0 .. max]; an exhausted list of draws keeps answering 0. *)
Definition random_interval (max : nat) : M World nat :=
  fun w => match rng w with
           | [] => (Ok 0%nat, w)
           | r :: rs => (Ok (r mod S max)%nat, set_rng rs w)
           end.

(** [x[i], x[j] = x[j], x[i]] *)
Definition swap (x : list nat) (i j : nat) : list nat :=
  match x !! i, x !! j with
  | Some xi, Some xj => <[j := xi]> (<[i := xj]> x)
  | _, _ => x
  end.

(** The loop of [np.random.shuffle]:
    [for i in reversed(range(1, n)): j = random_interval(i); swap]. *)
Fixpoint shuffle_from (i : nat) (x : list nat) : M World (list nat) :=
  match i with
  | O => ret x
  | S i' => j <- random_interval i ;; shuffle_from i' (swap x i j)
  end.

Definition np_random_shuffle (x : list nat) : M World (list nat) :=
  modify (log (call_shuffle (length x))) ;;
  shuffle_from (length x - 1) x.

(** [np.arange(n)] *)
Definition np_arange (n : nat) : list nat := seq 0 n.

(** [np.arange(start, stop)] on integers *)
Definition np_arange2 (start stop : Z) : list Z :=
  map (fun k => (start + Z.of_nat k)%Z) (seq 0 (Z.to_nat (stop - start))).

(** ** pandas operations used by [read_spectrum] *)

(** [df.clip(lower=m)]: applies to the data column, not to the index. *)
Definition df_clip_lower (m : Q) (df : DataFrame) : DataFrame :=
  map (fun '(w, v) => (w, Qmax v m)) df.

Fixpoint is_monotonic_increasing (idx : list Q) : bool :=
  match idx with
  | x :: (y :: _) as rest => Qle_bool x y && is_monotonic_increasing rest
  | _ => true
  end.

(** [df.loc[lo : hi]], a label slice with both ends included.  On an index
    sorted upwards, as the spectrometer writes it, these are the rows whose
    label lies in [lo .. hi].  On any other index pandas answers from the
    positions of the two labels, or raises [KeyError] when a label is
    absent; the model does not follow these cases and raises [KeyError] for
    every index that is not sorted upwards. *)
Definition df_loc (df : DataFrame) (lo hi : Z) : result DataFrame :=
  if is_monotonic_increasing (map fst df)
  then Ok (List.filter (fun '(w, _) => Qle_bool (inject_Z lo) w && Qle_bool w (inject_Z hi)) df)
  else Raise KeyError.

(** [np.round(x, 0)]: to the nearest integer, ties to the even one. *)
Definition np_round (x : Q) : Z :=
  let f := Qfloor x in
  match Qcompare (x - inject_Z f) (1 # 2) with
  | Lt => f
  | Gt => (f + 1)%Z
  | Eq => if Z.even f then f else (f + 1)%Z
  end.

Definition df_round_index (df : DataFrame) : list (Z * Q) :=
  map (fun '(w, v) => (np_round w, v)) df.

Fixpoint group_insert (k : Z) (v : Q) (gs : list (Z * list Q)) : list (Z * list Q) :=
  match gs with
  | [] => [(k, [v])]
  | (k', vs) :: gs' =>
      if (k <? k')%Z then (k, [v]) :: gs
      else if (k =? k')%Z then (k', (vs ++ [v])%list) :: gs'
      else (k', vs) :: group_insert k v gs'
  end.

(** [df.groupby("wavelengths").mean()]: one row per distinct label, labels
    ascending, each holding the mean of the rows that carry the label.  The
    mean is exact here, where pandas rounds in binary64: no statement below
    relies on a mean being at least its smallest row. *)
Definition df_groupby_mean (df : list (Z * Q)) : list (Z * Q) :=
  map (fun '(k, vs) => (k, Qsum vs / inject_Z (Z.of_nat (length vs))))
      (fold_left (fun gs '(k, v) => group_insert k v gs) df []).

(** [np.squeeze(df.to_numpy())] of a one-column frame *)
Definition to_numpy_squeeze (df : list (Z * Q)) : ndarray := map snd df.

(** ** utils.py *)

Definition default_int_time : Z := 1400.
Definition default_lamb_range : Z * Z := (450, 690)%Z.

Definition read_frame (folder : string) (int_time : Z) : M World ndarray :=
  frame <- np_load (os_path_join folder (pretty int_time +:+ "_frame.npy")) ;;
  let frame := np_clip frame (Some EPSILON) None in
  ret frame.

Definition read_spectrum (folder : string) (lamb_range : Z * Z) : M World ndarray :=
  spectrum <- pd_read_csv (os_path_join folder "spectrum.csv") ;;
  let spectrum := df_clip_lower EPSILON spectrum in
  spectrum <- lift (df_loc spectrum (fst lamb_range) (snd lamb_range - 1)) ;;
  let spectrum := df_round_index spectrum in
  let spectrum := df_groupby_mean spectrum in
  ret (to_numpy_squeeze spectrum).

(** [lamb_range] is a parameter of [read_measurement] that its body does
    not use: [read_spectrum(folder)] is called with its own default. *)
Definition read_measurement (folder : string) (int_time : Z) (lamb_range : Z * Z)
  : M World (ndarray * ndarray) :=
  frame <- read_frame folder int_time ;;
  spectrum <- read_spectrum folder default_lamb_range ;;
  ret (frame, spectrum).

(** ** dataset.py: class SPECTRE *)

Record SPECTRE : Type := mkSPECTRE {
  int_time : Z;
  lamb_range : Z * Z;
  wavelengths : list Z;
  root_dir : string;
  cache_dir : option string;
  cache : bool;
  clean_threshold : Q;
  augment : bool;
  shuffle : bool;
  _ids : option (list nat);
  i : nat;
  dark_meas : ndarray * ndarray;
  white_meas : ndarray * ndarray;
  meas_list : list descriptor;
  num_meas : nat
}.

Definition set_cache_dir (v : option string) (o : SPECTRE) : SPECTRE :=
  mkSPECTRE (int_time o) (lamb_range o) (wavelengths o) (root_dir o) v (cache o)
    (clean_threshold o) (augment o) (shuffle o) (_ids o) (i o) (dark_meas o)
    (white_meas o) (meas_list o) (num_meas o).
Definition set__ids (v : option (list nat)) (o : SPECTRE) : SPECTRE :=
  mkSPECTRE (int_time o) (lamb_range o) (wavelengths o) (root_dir o) (cache_dir o)
    (cache o) (clean_threshold o) (augment o) (shuffle o) v (i o) (dark_meas o)
    (white_meas o) (meas_list o) (num_meas o).
Definition set_i (v : nat) (o : SPECTRE) : SPECTRE :=
  mkSPECTRE (int_time o) (lamb_range o) (wavelengths o) (root_dir o) (cache_dir o)
    (cache o) (clean_threshold o) (augment o) (shuffle o) (_ids o) v (dark_meas o)
    (white_meas o) (meas_list o) (num_meas o).
Definition set_refs (d w : ndarray * ndarray) (o : SPECTRE) : SPECTRE :=
  mkSPECTRE (int_time o) (lamb_range o) (wavelengths o) (root_dir o) (cache_dir o)
    (cache o) (clean_threshold o) (augment o) (shuffle o) (_ids o) (i o) d w
    (meas_list o) (num_meas o).
Definition set_meas_list (v : list descriptor) (o : SPECTRE) : SPECTRE :=
  mkSPECTRE (int_time o) (lamb_range o) (wavelengths o) (root_dir o) (cache_dir o)
    (cache o) (clean_threshold o) (augment o) (shuffle o) (_ids o) (i o)
    (dark_meas o) (white_meas o) v (num_meas o).
Definition set_num_meas (v : nat) (o : SPECTRE) : SPECTRE :=
  mkSPECTRE (int_time o) (lamb_range o) (wavelengths o) (root_dir o) (cache_dir o)
    (cache o) (clean_threshold o) (augment o) (shuffle o) (_ids o) (i o)
    (dark_meas o) (white_meas o) (meas_list o) v.

(** What a method sees: the world and the object it is called on. *)
Record State : Type := mkState { world : World; self : SPECTRE }.

Definition call {A} (c : M World A) : M State A :=
  fun s => let '(r, w) := c (world s) in (r, mkState w (self s)).
Definition attr {A} (f : SPECTRE -> A) : M State A := gets (fun s => f (self s)).
Definition assign (f : SPECTRE -> SPECTRE) : M State unit :=
  modify (fun s => mkState (world s) (f (self s))).

(** [l.remove(x)]: drops the first element equal to [x]. *)
Fixpoint list_remove (x : descriptor) (l : list descriptor) : result (list descriptor) :=
  match l with
  | [] => Raise ValueError
  | y :: l' => if decide (y = x) then Ok l'
               else let? r := list_remove x l' in Ok (y :: r)
  end.

Definition _read_reference : M State ((ndarray * ndarray) * (ndarray * ndarray)) :=
  root <- attr root_dir ;;
  dark <- call (read_measurement (os_path_join root "Dark") default_int_time default_lamb_range) ;;
  white <- call (read_measurement (os_path_join root "White") default_int_time default_lamb_range) ;;
  ret (dark, white).

Definition _scan_root : M State (list descriptor) :=
  root <- attr root_dir ;;
  names <- call (os_listdir root) ;;
  (* Measurements without augmentation *)
  let raw_meas_list : list descriptor :=
    map (fun f => (os_path_join root f, None))
        (List.filter (fun f => negb (startswith f ".") && negb (bool_decide (f ∈ ["Dark"; "White"])))
                names) in
  aug <- attr augment ;;
  if negb aug then ret raw_meas_list
  else
    (* one half of the dataset with the other half *)
    let half := (length raw_meas_list / 2)%nat in
    let multiplied_list :=
      fold_left (fun acc meas_a =>
        fold_left (fun acc meas_b => (acc ++ [(fst meas_a, Some (fst meas_b))])%list)
                  (drop half raw_meas_list) acc)
        (take half raw_meas_list) [] in
    (* multiplication with itself *)
    let squared_list := map (fun meas => (fst meas, Some (fst meas))) raw_meas_list in
    ret (raw_meas_list ++ multiplied_list ++ squared_list)%list.

Definition _normalize_measurement (frame spectrum : ndarray) : M State (ndarray * ndarray) :=
  dark <- attr dark_meas ;;
  white <- attr white_meas ;;
  frame_norm <- lift (normalize_array frame (fst dark) (fst white)) ;;
  dark <- attr dark_meas ;;
  white <- attr white_meas ;;
  spectrum_norm <- lift (normalize_array spectrum (snd dark) (snd white)) ;;
  ret (frame_norm, spectrum_norm).

Definition _read_meas_file_singular (path : string) : M State (ndarray * ndarray) :=
  t <- attr int_time ;;
  '(frame, spectrum) <- call (read_measurement path t default_lamb_range) ;;
  '(frame, spectrum) <- _normalize_measurement frame spectrum ;;
  ret (frame, spectrum).

Definition _read_meas_file (index : nat) : M State (ndarray * ndarray) :=
  l <- attr meas_list ;;
  match l !! index with
  | None => raise IndexError
  | Some (path_a, None) =>
      (* No multiplication necessary *)
      _read_meas_file_singular path_a
  | Some (path_a, Some path_b) =>
      (* Sample is augmented (multiplication of two samples) *)
      '(frame_a, spectrum_a) <- _read_meas_file_singular path_a ;;
      '(frame_b, spectrum_b) <- _read_meas_file_singular path_b ;;
      frame <- lift (np_mul frame_a frame_b) ;;
      spectrum <- lift (np_mul spectrum_a spectrum_b) ;;
      ret (frame, spectrum)
  end.

(** The body of [for meas in self.meas_list] in [_init_dataset]. *)
Definition clean_step (meas : descriptor) : M State unit :=
  spectrum <-
    match meas with
    | (path_a, None) =>
        (* Non-augmented sample *)
        spectrum <- call (read_spectrum path_a default_lamb_range) ;;
        dark <- attr dark_meas ;;
        white <- attr white_meas ;;
        lift (normalize_array spectrum (snd dark) (snd white))
    | (path_a, Some path_b) =>
        (* Augmented sample *)
        spectrum_a <- call (read_spectrum path_a default_lamb_range) ;;
        dark <- attr dark_meas ;;
        white <- attr white_meas ;;
        spectrum_a <- lift (normalize_array spectrum_a (snd dark) (snd white)) ;;
        spectrum_b <- call (read_spectrum path_b default_lamb_range) ;;
        dark <- attr dark_meas ;;
        white <- attr white_meas ;;
        spectrum_b <- lift (normalize_array spectrum_b (snd dark) (snd white)) ;;
        lift (np_mul spectrum_a spectrum_b)
    end ;;
  let mean_signal := np_mean spectrum in
  thr <- attr clean_threshold ;;
  if float_lt mean_signal thr then
    l <- attr meas_list ;;
    l' <- lift (list_remove meas l) ;;
    assign (set_meas_list l')
  else ret tt.

(** The [for] statement: Python's list iterator keeps a position [k] into
    the list object itself and stops once [k] is past its current end, so a
    [remove] in the body shifts what the next iteration reads.  [fuel]
    bounds the number of iterations. *)
Fixpoint clean_loop (fuel k : nat) : M State unit :=
  match fuel with
  | O => ret tt
  | S fuel' =>
      l <- attr meas_list ;;
      match l !! k with
      | None => ret tt
      | Some meas => clean_step meas ;; clean_loop fuel' (S k)
      end
  end.

Definition cache_file (dir : string) : string :=
  os_path_join dir "dataset_cache.pickle".

Definition _init_dataset : M State unit :=
  cd <- attr cache_dir ;;
  (match cd with
   | None => assign (set_cache_dir (Some ".spectre_cache/"))
   | Some _ => ret tt
   end) ;;
  cd <- attr cache_dir ;;
  let dir := default "" cd in
  found <- call (os_path_exists (cache_file dir)) ;;
  use_cache <- (if found : bool then attr cache else ret false) ;;
  (if use_cache : bool then
     call (print "Found dataset cache at: .spectre_cache/dataset_cache.json, skipping data cleaning step") ;;
     l <- call (pickle_load (cache_file dir)) ;;
     assign (set_meas_list l)
   else
     call (print "Cleaning dataset, this might take a while") ;;
     call (try_except_pass (os_mkdir dir) FileExistsError) ;;
     l <- attr meas_list ;;
     clean_loop (length l) 0 ;;
     c <- attr cache ;;
     if c : bool then
       call (print "Data Cleaning finished, saving results to .spectre_cache/dataset_cache.pickle") ;;
       l <- attr meas_list ;;
       call (pickle_dump l (cache_file dir))
     else ret tt) ;;
  l <- attr meas_list ;;
  assign (set__ids (Some (np_arange (length l)))) ;;
  sh <- attr shuffle ;;
  if sh : bool then
    ids <- attr _ids ;;
    ids' <- call (np_random_shuffle (default [] ids)) ;;
    assign (set__ids (Some ids'))
  else ret tt.

Definition __len__ : M State nat :=
  ids <- attr _ids ;;
  (match ids with
   | None =>
       (* First call to __len__ initializes dataset. *)
       _init_dataset
   | Some _ => ret tt
   end) ;;
  ids <- attr _ids ;;
  ret (length (default [] ids)).

Definition send : M State (ndarray * ndarray) :=
  k <- attr i ;;
  n <- __len__ ;;
  if (k <? n)%nat then
    next_value <- _read_meas_file k ;;
    assign (fun o => set_i (i o + 1) o) ;;
    ret next_value
  else raise StopIteration.

Definition __init__ (root_dir : string) (int_time : Z) (shuffle : bool)
    (cache_dir : option string) (clean_threshold : Q) (lamb_range : Z * Z)
    (cache augment : bool) : M World SPECTRE :=
  fun w =>
    (* Storing user parameters *)
    let o := mkSPECTRE int_time lamb_range
               (np_arange2 (fst lamb_range) (snd lamb_range))
               root_dir cache_dir cache clean_threshold augment shuffle
               None 0 ([], []) ([], []) [] 0 in
    (* Initializing dataset *)
    let body : M State unit :=
      '(dark, white) <- _read_reference ;;
      assign (set_refs dark white) ;;
      l <- _scan_root ;;
      assign (set_meas_list l) ;;
      n <- __len__ ;;
      assign (set_num_meas n) in
    let '(r, s) := body (mkState w o) in
    (match r with Ok _ => Ok (self s) | Raise e => Raise e end, world s).

(** * Specification-side definitions

    What the specification speaks of, in its own words, to be compared with
    the functions above. *)

(** The clip of [x] to the interval [[lo, hi]]. *)
Definition clip_to_interval (lo hi x : Q) : Q :=
  if Qltb x lo then lo else if Qltb hi x then hi else x.

(** Element by element, the clip of [(raw - dark) / (white - dark)] to
    [[EPSILON, 1]]. *)
Definition normalize_spec (raw dark white : ndarray) : ndarray :=
  zip_with (fun r dw => clip_to_interval EPSILON 1 ((r - fst dw) / (snd dw - fst dw)))
           raw (zip dark white).

(** An entry of the root that is neither hidden nor a reference folder. *)
Definition is_measurement (f : string) : bool :=
  negb (startswith f ".") && negb (bool_decide (f ∈ ["Dark"; "White"])).

(** The singular list [L]: one descriptor per measurement folder, second
    slot empty. *)
Definition singular_list (root : string) (names : list string) : list descriptor :=
  map (fun f => (os_path_join root f, None)) (List.filter is_measurement names).

(** Each element of the first [floor(N/2)] positions of [L] paired with each
    element of the remaining positions. *)
Definition cross_list (L : list descriptor) : list descriptor :=
  flat_map (fun a => map (fun b => (fst a, Some (fst b))) (drop (length L / 2) L))
           (take (length L / 2) L).

(** Each folder paired with itself. *)
Definition square_list (L : list descriptor) : list descriptor :=
  map (fun m => (fst m, Some (fst m))) L.

(** The reader invoked at a given integration time and a given wavelength
    range, as the Reference Reader's contract words it. *)
Definition read_measurement_at (folder : string) (int_time : Z) (lamb_range : Z * Z)
  : M World (ndarray * ndarray) :=
  frame <- read_frame folder int_time ;;
  spectrum <- read_spectrum folder lamb_range ;;
  ret (frame, spectrum).

(** The mean signal of a descriptor: the mean of its combined normalized
    spectrum, read from the disk of [w] with the references of [o]. *)
Definition mean_signal (o : SPECTRE) (w : World) (meas : descriptor)
  : result (option Q) :=
  let spectrum_of path :=
    let? sp := fst (read_spectrum path default_lamb_range w) in
    normalize_array sp (snd (dark_meas o)) (snd (white_meas o)) in
  match meas with
  | (path_a, None) => let? sp := spectrum_of path_a in Ok (np_mean sp)
  | (path_a, Some path_b) =>
      let? a := spectrum_of path_a in
      let? b := spectrum_of path_b in
      let? sp := np_mul a b in Ok (np_mean sp)
  end.

(** [n] produce-next calls in a row, with their outcomes. *)
Fixpoint sends (n : nat) (s : State) : list (result (ndarray * ndarray)) * State :=
  match n with
  | O => ([], s)
  | S n' => let '(r, s') := send s in
            let '(rs, s'') := sends n' s' in (r :: rs, s'')
  end.

(** The index has been finalized: the permutation exists and is as long as
    the filtered index. *)
Definition finalized (o : SPECTRE) : Prop :=
  match _ids o with
  | Some ids => length ids = length (meas_list o)
  | None => False
  end.

Definition is_ok {A} (r : result A) : bool :=
  match r with Ok _ => true | Raise _ => false end.

Definition exhausted {A} (r : result A) : Prop := r = Raise StopIteration.

Definition successes {A} (rs : list (result A)) : nat :=
  length (List.filter is_ok rs).

(** The object with its wavelength configuration blanked out. *)
Definition forget_lamb (o : SPECTRE) : SPECTRE :=
  mkSPECTRE (int_time o) (0, 0)%Z [] (root_dir o) (cache_dir o) (cache o)
    (clean_threshold o) (augment o) (shuffle o) (_ids o) (i o) (dark_meas o)
    (white_meas o) (meas_list o) (num_meas o).

(** ** A small program logic for [M] *)

(** [c] moves every state along [I] and raises only exceptions in [E]. *)
Definition ensures {S A} (I : S -> S -> Prop) (E : exn -> Prop) (c : M S A) : Prop :=
  forall s, I s (snd (c s)) /\ forall e, fst (c s) = Raise e -> E e.

(** [c] cannot tell [R]-related states apart, and keeps them related. *)
Definition respects {S A} (R : S -> S -> Prop) (c : M S A) : Prop :=
  forall s1 s2, R s1 s2 ->
    fst (c s1) = fst (c s2) /\ R (snd (c s1)) (snd (c s2)).

Definition not_stop (e : exn) : Prop := e <> StopIteration.

(** What a read leaves alone: the file system, the oracle and the generator. *)
Definition same_disk (w w' : World) : Prop :=
  fs w' = fs w /\ denied w' = denied w /\ rng w' = rng w.

(** A method that only reads: the disk and the object are as before. *)
Definition reads (s s' : State) : Prop :=
  same_disk (world s) (world s') /\ self s' = self s.

(** The cleaning pass: the disk is as before, and of the object only
    [meas_list] changes, never growing. *)
Definition cleans (s s' : State) : Prop :=
  same_disk (world s) (world s') /\
  set_meas_list [] (self s') = set_meas_list [] (self s) /\
  (length (meas_list (self s')) <= length (meas_list (self s)))%nat.

(** Two runs that differ in the wavelength configuration only. *)
Definition differ_in_lamb (s1 s2 : State) : Prop :=
  world s1 = world s2 /\ forget_lamb (self s1) = forget_lamb (self s2).

(** ** Example inputs *)

(** A spectrum file with the same intensity [v] at 450 nm and 451 nm. *)
Definition flat_csv (v : Q) : node := Csv [(450, v); (451, v)].

(** A dataset root [data] holding the two references and the measurements
    [A] and [B], whose spectra have intensities [a] and [b]; dark is 1 and
    white is 11 at 1400, so that the mean signals are [(a - 1) / 10] and
    [(b - 1) / 10]. *)
Definition lab_disk (a b : Q) : gmap string node :=
  list_to_map [
    ("data", Dir ["Dark"; ".DS_Store"; "A"; "White"; "B"]);
    ("data/Dark/1400_frame.npy", Npy [1; 1]);
    ("data/Dark/1200_frame.npy", Npy [2; 2]);
    ("data/Dark/spectrum.csv", flat_csv 1);
    ("data/White/1400_frame.npy", Npy [11; 11]);
    ("data/White/1200_frame.npy", Npy [10; 10]);
    ("data/White/spectrum.csv", flat_csv 11);
    ("data/A/1400_frame.npy", Npy [6; 21]);
    ("data/A/1200_frame.npy", Npy [4; 8]);
    ("data/A/spectrum.csv", flat_csv a);
    ("data/B/1400_frame.npy", Npy [3; 7]);
    ("data/B/1200_frame.npy", Npy [3; 5]);
    ("data/B/spectrum.csv", flat_csv b)
  ].

Definition lab_world (a b : Q) (draws : list nat) : World :=
  mkWorld (lab_disk a b) (fun _ => false) draws [].

(** The object under construction, before [_read_reference] has run. *)
Definition blank (root : string) (t : Z) (sh : bool) (cd : option string)
    (thr : Q) (r : Z * Z) (c a : bool) : SPECTRE :=
  mkSPECTRE t r (np_arange2 (fst r) (snd r)) root cd c thr a sh
    None 0 ([], []) ([], []) [] 0.

(** The dataset object built over [lab_disk a b], without augmentation and
    without cache, together with the world it leaves. *)
Definition lab_state (a b : Q) (t : Z) (sh : bool) (draws : list nat) : State :=
  match __init__ "data" t sh None (15 # 100) (450, 690)%Z false false
                 (lab_world a b draws) with
  | (Ok o, w) => mkState w o
  | (Raise _, w) =>
      mkState w (blank "data" t sh None (15 # 100) (450, 690)%Z false false)
  end.

(** The three blocks of [_init_dataset], named for the proofs: the branch
    that loads the cache record, the branch that cleans, and the statements
    after the test. *)
Definition init_load (dir : string) : M State unit :=
  call (print "Found dataset cache at: .spectre_cache/dataset_cache.json, skipping data cleaning step") ;;
  l <- call (pickle_load (cache_file dir)) ;;
  assign (set_meas_list l).

Definition init_clean (dir : string) : M State unit :=
  call (print "Cleaning dataset, this might take a while") ;;
  call (try_except_pass (os_mkdir dir) FileExistsError) ;;
  l <- attr meas_list ;;
  clean_loop (length l) 0 ;;
  c <- attr cache ;;
  if c : bool then
    call (print "Data Cleaning finished, saving results to .spectre_cache/dataset_cache.pickle") ;;
    l <- attr meas_list ;;
    call (pickle_dump l (cache_file dir))
  else ret tt.

Definition init_tail : M State unit :=
  l <- attr meas_list ;;
  assign (set__ids (Some (np_arange (length l)))) ;;
  sh <- attr shuffle ;;
  if sh : bool then
    ids <- attr _ids ;;
    ids' <- call (np_random_shuffle (default [] ids)) ;;
    assign (set__ids (Some ids'))
  else ret tt.

(** The cache location in force once [_init_dataset] has applied its
    default. *)
Definition cache_location (o : SPECTRE) : string :=
  default ".spectre_cache/" (cache_dir o).

(** The file system after [os.mkdir(dir)] under [except FileExistsError:
    pass]: the directory is added when nothing was there. *)
Definition with_dir (dir : string) (f : gmap string node) : gmap string node :=
  match f !! dir with
  | None => <[dir := Dir []]> f
  | Some _ => f
  end.

(** [lab_disk 6 3] after a first run with caching enabled kept only [B]. *)
Definition cached_disk : gmap string node :=
  <[".spectre_cache/dataset_cache.pickle" := Pickle [("data/B", None)]]>
    (<[".spectre_cache/" := Dir []]> (lab_disk 6 3)).

(** The Reference Reader as its contract words it: both calibration folders
    read at integration time [t] and wavelength range [r]. *)
Definition read_reference_at (t : Z) (r : Z * Z)
  : M State ((ndarray * ndarray) * (ndarray * ndarray)) :=
  root <- attr root_dir ;;
  dark <- call (read_measurement_at (os_path_join root "Dark") t r) ;;
  white <- call (read_measurement_at (os_path_join root "White") t r) ;;
  ret (dark, white).

(** The cursor is where it was. *)
Definition keeps_cursor (s s' : State) : Prop := i (self s') = i (self s).

Definition any_exn (e : exn) : Prop := True.

(** ** Definitions for the further properties *)

(** The groups built by [groupby]: labels strictly ascending and within the
    bounds of the rows, no group empty, every value one of the rows'. *)
Fixpoint ascending (l : list Z) : Prop :=
  match l with
  | [] => True
  | k :: l' => Forall (Z.lt k) l' /\ ascending l'
  end.

Definition groups_ok (P : Q -> Prop) (lo hi : Z) (gs : list (Z * list Q)) : Prop :=
  ascending (map fst gs) /\
  Forall (fun g => (lo <= fst g <= hi)%Z /\ snd g <> [] /\ Forall P (snd g)) gs.

(** What a run whose cache location is [dir] may do to the file system:
    create [dir] where nothing was and, with caching enabled, write the
    cache file; every other path answers as before. *)
Definition touches (dir : string) (c : bool) (w w' : World) : Prop :=
  forall p, (p <> dir \/ is_Some (fs w !! p)) -> (p <> cache_file dir \/ c = false) ->
            fs w' !! p = fs w !! p.

(** Of the object, only the working index may differ. *)
Definition only_index (s s' : State) : Prop :=
  set_meas_list [] (self s') = set_meas_list [] (self s).

(** The object over [lab_disk a b] as the constructor has it just before
    finalization: references read, candidate index scanned, no permutation
    yet. *)
Definition lab_unclean (a b : Q) (c : bool) : State :=
  mkState (lab_world a b [])
    (set_meas_list [("data/A", None); ("data/B", None)]
       (set_refs ([1; 1], [1; 1])%Q ([11; 11], [11; 11])%Q
          (blank "data" 1400 false None (15 # 100)%Q (450, 690)%Z c false))).

(** The cleaning rule on one descriptor: its mean signal can be computed
    and is strictly below the threshold. *)
Definition weak (o : SPECTRE) (w : World) (d : descriptor) : bool :=
  match mean_signal o w d with
  | Ok m => float_lt m (clean_threshold o)
  | Raise _ => false
  end.

(** No descriptor that satisfies [p] is followed at once by another. *)
Fixpoint no_neighbours (p : descriptor -> bool) (l : list descriptor) : Prop :=
  match l with
  | d :: rest =>
      match rest with
      | d' :: _ => (p d = true -> p d' = false) /\ no_neighbours p rest
      | [] => True
      end
  | [] => True
  end.

(** Two states that hold the same files and the same object; the trace, the
    oracle and the generator may differ. *)
Definition same_files (s1 s2 : State) : Prop :=
  fs (world s1) = fs (world s2) /\ self s1 = self s2.

(** Two states that hold the same files and the same object up to the
    cursor; the trace, the oracle and the generator may differ. *)
Definition same_but_cursor (s1 s2 : State) : Prop :=
  fs (world s1) = fs (world s2) /\ set_i 0 (self s1) = set_i 0 (self s2).

(** * Properties *)

Local Close Scope Q_scope.

(** ** Rules of the program logic *)

Section Ensures.
Context {S : Type} (I : S -> S -> Prop) (E : exn -> Prop) `{!PreOrder I}.

Lemma ensures_ret {A} (a : A) : ensures I E (ret a).
Proof. intros s. split; [reflexivity|discriminate]. Qed.

Lemma ensures_raise {A} e : E e -> ensures I E (@raise S A e).
Proof. intros He s. split; [reflexivity|]. intros e' [= <-]. exact He. Qed.

Lemma ensures_gets {A} (f : S -> A) : ensures I E (gets f).
Proof. intros s. split; [reflexivity|discriminate]. Qed.

Lemma ensures_modify (f : S -> S) : (forall s, I s (f s)) -> ensures I E (modify f).
Proof. intros Hf s. split; [apply Hf|discriminate]. Qed.

Lemma ensures_lift {A} (r : result A) :
  (forall e, r = Raise e -> E e) -> ensures I E (@lift S A r).
Proof. intros Hr s. split; [reflexivity|exact Hr]. Qed.

Lemma ensures_bind {A B} (c : M S A) (k : A -> M S B) :
  ensures I E c -> (forall a, ensures I E (k a)) -> ensures I E (bind c k).
Proof.
  intros Hc Hk s. unfold bind. specialize (Hc s).
  destruct (c s) as [[a|e] s1]; simpl in *.
  - destruct (Hk a s1) as [HI HE]. split; [|exact HE].
    etransitivity; [apply Hc|exact HI].
  - split; [apply Hc|]. intros e' [= <-]. apply Hc. reflexivity.
Qed.

Lemma ensures_try_except_pass (c : M S unit) e :
  ensures I E c -> ensures I E (try_except_pass c e).
Proof.
  intros Hc s. unfold try_except_pass. specialize (Hc s).
  destruct (c s) as [[[]|e'] s1]; simpl in *; [exact Hc|].
  destruct (decide (e' = e)); simpl; [split; [apply Hc|discriminate]|exact Hc].
Qed.
End Ensures.

Section Respects.
Context {S : Type} (R : S -> S -> Prop).

Lemma respects_ret {A} (a : A) : respects R (ret a).
Proof. intros s1 s2 H. split; [reflexivity|exact H]. Qed.

Lemma respects_raise {A} e : respects R (@raise S A e).
Proof. intros s1 s2 H. split; [reflexivity|exact H]. Qed.

Lemma respects_lift {A} (r : result A) : respects R (@lift S A r).
Proof. intros s1 s2 H. split; [reflexivity|exact H]. Qed.

Lemma respects_gets {A} (f : S -> A) :
  (forall s1 s2, R s1 s2 -> f s1 = f s2) -> respects R (gets f).
Proof. intros Hf s1 s2 H. split; [simpl; f_equal; auto|exact H]. Qed.

Lemma respects_modify (f : S -> S) :
  (forall s1 s2, R s1 s2 -> R (f s1) (f s2)) -> respects R (modify f).
Proof. intros Hf s1 s2 H. split; [reflexivity|apply Hf, H]. Qed.

Lemma respects_bind {A B} (c : M S A) (k : A -> M S B) :
  respects R c -> (forall a, respects R (k a)) -> respects R (bind c k).
Proof.
  intros Hc Hk s1 s2 H. unfold bind. destruct (Hc s1 s2 H) as [Hr HR].
  destruct (c s1) as [[a|e] t1], (c s2) as [[a'|e'] t2];
    simpl in *; try discriminate.
  - injection Hr as <-. apply Hk, HR.
  - injection Hr as <-. split; [reflexivity|exact HR].
Qed.
End Respects.

#[local] Instance same_disk_preorder : PreOrder same_disk.
Proof.
  split.
  - intros w. repeat split.
  - intros a b c (? & ? & ?) (? & ? & ?). repeat split; congruence.
Qed.

#[local] Instance reads_preorder : PreOrder reads.
Proof.
  split.
  - intros s. split; reflexivity.
  - intros a b c [? ?] [? ?]. split; [etransitivity; eassumption|congruence].
Qed.

#[local] Instance cleans_preorder : PreOrder cleans.
Proof.
  split.
  - intros s. split; [reflexivity|]. split; [reflexivity|lia].
  - intros a b c (? & ? & ?) (? & ? & ?).
    split; [etransitivity; eassumption|]. split; [congruence|lia].
Qed.

Lemma reads_cleans s s' : reads s s' -> cleans s s'.
Proof. intros [Hd Hs]. split; [exact Hd|]. rewrite Hs. split; [reflexivity|lia]. Qed.

Lemma broadcast_raises f a b e : broadcast f a b = Raise e -> not_stop e.
Proof.
  unfold broadcast. repeat case_match; intros [= <-]; discriminate.
Qed.

Lemma normalize_array_raises a d w e : normalize_array a d w = Raise e -> not_stop e.
Proof.
  unfold normalize_array, np_sub, np_div, rbind.
  repeat case_match; try discriminate; intros [= <-];
    eapply broadcast_raises; eassumption.
Qed.

Lemma df_loc_raises df lo hi e : df_loc df lo hi = Raise e -> not_stop e.
Proof. unfold df_loc. case_match; intros [= <-]. discriminate. Qed.

Lemma list_remove_raises x l e : list_remove x l = Raise e -> not_stop e.
Proof.
  induction l as [|y l IH]; simpl; [intros [= <-]; discriminate|].
  case_match; [discriminate|]. unfold rbind. case_match; [discriminate|].
  intros [= <-]. apply IH. reflexivity.
Qed.

Lemma list_remove_length x l l' : list_remove x l = Ok l' -> length l = Datatypes.S (length l').
Proof.
  revert l'. induction l as [|y l IH]; intros l'; simpl; [discriminate|].
  case_match; [intros [= <-]; reflexivity|].
  unfold rbind. case_match; [|discriminate].
  intros [= <-]. simpl. f_equal. apply IH. reflexivity.
Qed.

Create HintDb ens discriminated.

(** Splits a computation along its binds and matches, closing the leaves
    with the rules above, the hints of [ens] and [tac]. *)
Ltac ens_with tac :=
  repeat first
    [ apply (ensures_ret _ _)
    | apply (ensures_gets _ _)
    | solve [auto with ens]
    | apply (ensures_bind _ _); [|intros ?]
    | apply (ensures_raise _ _); unfold not_stop; discriminate
    | apply (ensures_modify _ _); intros ?; repeat split
    | apply (ensures_lift _ _); intros ?;
        first [ apply normalize_array_raises | apply broadcast_raises
              | apply df_loc_raises | apply list_remove_raises ]
    | tac
    | progress case_match ].

Lemma ensures_print msg : ensures same_disk not_stop (print msg).
Proof. unfold print. ens_with fail. Qed.

Lemma ensures_np_load p : ensures same_disk not_stop (np_load p).
Proof. unfold np_load. ens_with fail. Qed.

Lemma ensures_pd_read_csv p : ensures same_disk not_stop (pd_read_csv p).
Proof. unfold pd_read_csv. ens_with fail. Qed.

Lemma ensures_os_listdir p : ensures same_disk not_stop (os_listdir p).
Proof. unfold os_listdir. ens_with fail. Qed.

Lemma ensures_os_path_exists p : ensures same_disk not_stop (os_path_exists p).
Proof. unfold os_path_exists. ens_with fail. Qed.

Lemma ensures_pickle_load p : ensures same_disk not_stop (pickle_load p).
Proof. unfold pickle_load. ens_with fail. Qed.

#[local] Hint Resolve ensures_print ensures_np_load ensures_pd_read_csv
  ensures_os_listdir ensures_os_path_exists ensures_pickle_load : ens.

Lemma ensures_read_frame folder t : ensures same_disk not_stop (read_frame folder t).
Proof. unfold read_frame. ens_with fail. Qed.

Lemma ensures_read_spectrum folder r : ensures same_disk not_stop (read_spectrum folder r).
Proof. unfold read_spectrum. ens_with fail. Qed.

#[local] Hint Resolve ensures_read_frame ensures_read_spectrum : ens.

Lemma ensures_read_measurement folder t r :
  ensures same_disk not_stop (read_measurement folder t r).
Proof. unfold read_measurement. ens_with fail. Qed.

#[local] Hint Resolve ensures_read_measurement : ens.

Lemma ensures_call {A} (J : State -> State -> Prop) E (c : M World A) :
  (forall s w', same_disk (world s) w' -> J s (mkState w' (self s))) ->
  ensures same_disk E c -> ensures J E (call c).
Proof.
  intros HJ Hc s. unfold call. specialize (Hc (world s)).
  destruct (c (world s)) as [r w']. simpl in *. split; [apply HJ, Hc|apply Hc].
Qed.

Lemma ensures_attr {A} (J : State -> State -> Prop) E `{!PreOrder J} (f : SPECTRE -> A) :
  ensures J E (attr f).
Proof. apply ensures_gets; assumption. Qed.

Lemma reads_call s w' : same_disk (world s) w' -> reads s (mkState w' (self s)).
Proof. intros H. split; [exact H|reflexivity]. Qed.

Lemma cleans_call s w' : same_disk (world s) w' -> cleans s (mkState w' (self s)).
Proof. intros H. apply reads_cleans, reads_call, H. Qed.

Ltac ens_state :=
  ens_with ltac:(first [ apply (ensures_attr _ _)
                       | apply ensures_call; [first [apply reads_call|apply cleans_call]|] ]).

Lemma ensures_normalize_measurement frame spectrum :
  ensures reads not_stop (_normalize_measurement frame spectrum).
Proof. unfold _normalize_measurement. ens_state. Qed.

#[local] Hint Resolve ensures_normalize_measurement : ens.

Lemma ensures_read_meas_file_singular path :
  ensures reads not_stop (_read_meas_file_singular path).
Proof. unfold _read_meas_file_singular. ens_state. Qed.

#[local] Hint Resolve ensures_read_meas_file_singular : ens.

Lemma ensures_read_meas_file index : ensures reads not_stop (_read_meas_file index).
Proof. unfold _read_meas_file. ens_state. Qed.

(** ** The Array Normalizer *)

Section Normalizer.
Local Open Scope Q_scope.

Lemma Qltb_lt x y : Qltb x y = true <-> x < y.
Proof.
  unfold Qltb. rewrite negb_true_iff, <- not_true_iff_false, Qle_bool_iff.
  split; [apply Qnot_le_lt | apply Qlt_not_le].
Qed.

Lemma Qltb_ge x y : Qltb x y = false <-> y <= x.
Proof.
  unfold Qltb. rewrite negb_false_iff, Qle_bool_iff. reflexivity.
Qed.

Lemma EPSILON_le_1 : EPSILON <= 1.
Proof. unfold EPSILON. lra. Qed.

(** numpy's [minimum(hi, maximum(x, lo))] is the clip to [[lo, hi]]. *)
Lemma clip1_interval lo hi x :
  lo <= hi -> clip1 (Some lo) (Some hi) x == clip_to_interval lo hi x.
Proof.
  intros Hlh. unfold clip1, clip_to_interval.
  destruct (Qltb x lo) eqn:E1.
  - apply Qltb_lt in E1.
    destruct (Q.max_spec x lo) as [[_ ->]|[? ?]]; [|lra].
    destruct (Q.min_spec hi lo) as [[? ?]|[_ ->]]; [lra|reflexivity].
  - apply Qltb_ge in E1.
    destruct (Q.max_spec x lo) as [[? ?]|[_ ->]]; [lra|].
    destruct (Qltb hi x) eqn:E2.
    + apply Qltb_lt in E2. destruct (Q.min_spec hi x) as [[_ ->]|[? ?]]; [reflexivity|lra].
    + apply Qltb_ge in E2. destruct (Q.min_spec hi x) as [[? ?]|[_ ->]]; [lra|reflexivity].
Qed.

Lemma clip_to_interval_bounds lo hi x :
  lo <= hi -> lo <= clip_to_interval lo hi x <= hi.
Proof.
  intros Hlh. unfold clip_to_interval.
  destruct (Qltb x lo) eqn:E1; [lra|]. apply Qltb_ge in E1.
  destruct (Qltb hi x) eqn:E2; [lra|]. apply Qltb_ge in E2. lra.
Qed.

(** On operands of one shape nothing is broadcast and nothing raises. *)
Lemma normalize_array_same_shape raw dark white :
  length raw = length dark -> length white = length dark ->
  normalize_array raw dark white =
    Ok (np_clip (zip_with Qdiv (zip_with Qminus raw dark) (zip_with Qminus white dark))
                (Some EPSILON) (Some 1)).
Proof.
  intros Hr Hw. unfold normalize_array, np_sub, np_div, broadcast.
  rewrite Hr, Hw, Nat.eqb_refl. simpl.
  rewrite !length_zip_with, Hr, Hw, Nat.eqb_refl. reflexivity.
Qed.

Lemma clip_quotients_spec dark white :
  Forall2 Qlt dark white -> forall raw, length raw = length dark ->
  Forall2 Qeq
    (np_clip (zip_with Qdiv (zip_with Qminus raw dark) (zip_with Qminus white dark))
             (Some EPSILON) (Some 1))
    (normalize_spec raw dark white).
Proof.
  induction 1 as [|d w dark white Hdw _ IH]; intros [|r raw] Hlen;
    simpl in *; try discriminate; constructor.
  - apply clip1_interval, EPSILON_le_1.
  - apply IH. congruence.
Qed.

Lemma normalize_spec_bounds raw dark white :
  Forall (fun y => EPSILON <= y <= 1) (normalize_spec raw dark white).
Proof.
  unfold normalize_spec. generalize (zip dark white) as dw.
  induction raw as [|r raw IH]; intros [|p dw]; simpl; constructor.
  - apply clip_to_interval_bounds, EPSILON_le_1.
  - apply IH.
Qed.

Lemma Forall_between_Qeq lo hi (l k : list Q) :
  Forall2 Qeq l k -> Forall (fun y => lo <= y <= hi) k ->
  Forall (fun y => lo <= y <= hi) l.
Proof.
  induction 1 as [|x y l k Hxy _ IH]; intros Hb; constructor.
  - apply Forall_cons_1 in Hb as [Hy _]. rewrite Hxy. exact Hy.
  - apply IH. apply Forall_cons_1 in Hb as [_ Hb]. exact Hb.
Qed.

(** C5. For arrays [raw], [dark], [white] of one shape with [dark < white]
    element by element, [normalize_array] returns, element by element, the
    clip of [(raw - dark) / (white - dark)] to [[EPSILON, 1]] with
    [EPSILON = 1e-8]; hence every element of the output lies in
    [[EPSILON, 1]]. *)
Theorem normalize_array_is_clip (raw dark white : ndarray) :
  length raw = length dark ->
  Forall2 Qlt dark white ->
  exists out,
    normalize_array raw dark white = Ok out /\
    Forall2 Qeq out (normalize_spec raw dark white) /\
    length out = length raw /\
    Forall (fun y => EPSILON <= y <= 1) out /\
    EPSILON == 1 / 100000000.
Proof.
  intros Hr Hdw. pose proof (Forall2_length _ _ _ Hdw) as Hw.
  eexists. split; [apply normalize_array_same_shape; congruence|].
  pose proof (clip_quotients_spec dark white Hdw raw Hr) as Heq.
  split; [exact Heq|]. split; [|split].
  - unfold np_clip. rewrite length_map, !length_zip_with. lia.
  - eapply Forall_between_Qeq; [exact Heq|apply normalize_spec_bounds].
  - reflexivity.
Qed.

Lemma normalize_array_is_clip_witness :
  exists out,
    normalize_array [3; 1 # 2; -4] [0; 0; 1] [2; 1; 3] = Ok out /\
    Forall2 Qeq out (normalize_spec [3; 1 # 2; -4] [0; 0; 1] [2; 1; 3]) /\
    length out = 3%nat /\
    Forall (fun y => EPSILON <= y <= 1) out /\
    EPSILON == 1 / 100000000.
Proof.
  apply (normalize_array_is_clip [3; 1 # 2; -4] [0; 0; 1] [2; 1; 3]).
  - reflexivity.
  - repeat constructor.
Defined.

(** C6, as stated, fails: with [dark = 0] and [white = 2] the sample [1]
    normalizes to [1/2], and [1/2] normalizes to [1/4]. *)
Lemma normalize_array_twice_differs :
  ~ (forall a dark white n1 n2 : ndarray,
       length a = length dark -> Forall2 Qlt dark white ->
       normalize_array a dark white = Ok n1 ->
       normalize_array n1 dark white = Ok n2 ->
       Forall2 Qeq n2 n1).
Proof.
  intros H.
  specialize (H [1] [0] [2] [1 # 2] [1 # 4] eq_refl).
  assert (Hlt : Forall2 Qlt [0] [2]) by (repeat constructor).
  specialize (H Hlt eq_refl eq_refl).
  apply Forall2_cons_1 in H as [H _]. vm_compute in H. discriminate.
Qed.

Lemma clip_identity_refs (n dark white : ndarray) :
  Forall (Qeq 0) dark -> Forall (Qeq 1) white ->
  length n = length dark -> length white = length dark ->
  Forall (fun y => EPSILON <= y <= 1) n ->
  Forall2 Qeq
    (np_clip (zip_with Qdiv (zip_with Qminus n dark) (zip_with Qminus white dark))
             (Some EPSILON) (Some 1)) n.
Proof.
  intros Hd. revert n white.
  induction Hd as [|d dark Hd0 _ IH]; intros [|y n] [|w white] Hw Hn Hlen Hb;
    simpl in *; try discriminate; constructor.
  - apply Forall_cons_1 in Hw as [Hw1 _]. apply Forall_cons_1 in Hb as [Hy _].
    etransitivity; [apply clip1_interval, EPSILON_le_1|].
    assert (Hq : (y - d) / (w - d) == y) by (rewrite <- Hd0, <- Hw1; field).
    unfold clip_to_interval.
    destruct (Qltb _ EPSILON) eqn:E1; [apply Qltb_lt in E1; lra|].
    destruct (Qltb 1 _) eqn:E2; [apply Qltb_lt in E2; lra|exact Hq].
  - apply Forall_cons_1 in Hw as [_ Hw]. apply Forall_cons_1 in Hb as [_ Hb].
    apply IH; auto.
Qed.

(** C6, amended. With the identity calibration, [dark = 0] and [white = 1]
    element by element, normalizing an already normalized array a second
    time with the same references yields the same array. *)
Theorem normalize_array_idempotent_identity_refs (a dark white n : ndarray) :
  Forall (Qeq 0) dark -> Forall (Qeq 1) white ->
  length a = length dark -> length white = length dark ->
  normalize_array a dark white = Ok n ->
  exists n2, normalize_array n dark white = Ok n2 /\ Forall2 Qeq n2 n.
Proof.
  intros Hd Hw Ha Hlen Hn.
  rewrite normalize_array_same_shape in Hn by assumption.
  injection Hn as <-.
  assert (Hdw : Forall2 Qlt dark white).
  { clear Ha. revert white Hw Hlen.
    induction Hd as [|d dark Hd0 _ IH]; intros [|w white] Hw Hlen;
      simpl in *; try discriminate; constructor.
    - apply Forall_cons_1 in Hw as [Hw1 _]. lra.
    - apply Forall_cons_1 in Hw as [_ Hw]. apply IH; auto. }
  set (n := np_clip _ _ _).
  assert (Hln : length n = length dark).
  { unfold n, np_clip. rewrite length_map, !length_zip_with. lia. }
  eexists. split; [apply normalize_array_same_shape; assumption|].
  apply clip_identity_refs; try assumption.
  eapply Forall_between_Qeq;
    [apply clip_quotients_spec; eassumption|apply normalize_spec_bounds].
Qed.

Lemma normalize_array_idempotent_identity_refs_witness :
  exists n2, normalize_array [1 # 2; 1] [0; 0] [1; 1] = Ok n2 /\
             Forall2 Qeq n2 [1 # 2; 1].
Proof.
  apply (normalize_array_idempotent_identity_refs [1 # 2; 7] [0; 0] [1; 1]).
  - repeat constructor.
  - repeat constructor.
  - reflexivity.
  - reflexivity.
  - reflexivity.
Defined.

End Normalizer.

(** ** The Root Scanner *)

Lemma fold_left_append {A B} (g : B -> A) (ys : list B) (acc : list A) :
  fold_left (fun acc b => (acc ++ [g b])%list) ys acc = (acc ++ map g ys)%list.
Proof.
  revert acc. induction ys as [|y ys IH]; intros acc; simpl.
  - by rewrite app_nil_r.
  - rewrite IH, <- app_assoc. reflexivity.
Qed.

Lemma nested_fold_left_flat_map {A B C} (f : A -> B -> C) (xs : list A) (ys : list B)
    (acc : list C) :
  fold_left (fun acc a => fold_left (fun acc b => (acc ++ [f a b])%list) ys acc) xs acc
  = (acc ++ flat_map (fun a => map (f a) ys) xs)%list.
Proof.
  revert acc. induction xs as [|x xs IH]; intros acc; simpl.
  - by rewrite app_nil_r.
  - rewrite IH, fold_left_append, <- app_assoc. reflexivity.
Qed.

Lemma length_flat_map_const {A B} (f : A -> list B) (n : nat) (xs : list A) :
  (forall a, length (f a) = n) -> length (flat_map f xs) = (length xs * n)%nat.
Proof.
  intros Hf. induction xs as [|x xs IH]; simpl; [reflexivity|].
  rewrite length_app, Hf, IH. reflexivity.
Qed.

Lemma half_up (n : nat) : (n - n / 2 = (n + 1) / 2)%nat.
Proof.
  pose proof (Nat.div_mod_eq n 2) as H1.
  assert (H2 : (n mod 2 < 2)%nat) by (apply Nat.mod_upper_bound; lia).
  pose proof (Nat.div_mod_eq (n + 1) 2) as H3.
  assert (H4 : ((n + 1) mod 2 < 2)%nat) by (apply Nat.mod_upper_bound; lia).
  lia.
Qed.

Lemma length_cross_list (L : list descriptor) :
  length (cross_list L) = ((length L / 2) * ((length L + 1) / 2))%nat.
Proof.
  unfold cross_list.
  rewrite (length_flat_map_const _ (length L - length L / 2)).
  - rewrite length_take, half_up. f_equal.
    pose proof (Nat.div_mod_eq (length L) 2). lia.
  - intros a. rewrite length_map, length_drop. reflexivity.
Qed.

Lemma Forall_map_all {A B} (P : B -> Prop) (f : A -> B) (l : list A) :
  (forall a, P (f a)) -> Forall P (map f l).
Proof. intros H. induction l; simpl; constructor; auto. Qed.

Lemma Forall_flat_map_all {A B} (P : B -> Prop) (f : A -> list B) (l : list A) :
  (forall a, Forall P (f a)) -> Forall P (flat_map f l).
Proof.
  intros H. induction l; simpl; [constructor|]. apply Forall_app. auto.
Qed.

Lemma scan_root_run (s : State) (names : list string) :
  fs (world s) !! root_dir (self s) = Some (Dir names) ->
  let L := singular_list (root_dir (self s)) names in
  _scan_root s =
    (Ok (if augment (self s) then (L ++ cross_list L ++ square_list L)%list else L),
     mkState (log (call_listdir (root_dir (self s))) (world s)) (self s)).
Proof.
  intros Hdir L.
  unfold _scan_root, bind, attr, call, gets, os_listdir, bind, gets, modify, ret.
  cbn [world self fs log]. rewrite Hdir. cbn [world self fs log].
  destruct (augment (self s)); cbn [negb]; [|reflexivity].
  rewrite (nested_fold_left_flat_map (fun a b => (fst a, Some (fst b)))).
  reflexivity.
Qed.

(** C4. For a root whose listing holds [N] entries that are neither hidden
    nor a reference folder: without augmentation the candidate index is
    exactly the [N] singular descriptors, second slot empty; with
    augmentation it is the singular list [L], then the cross list pairing
    each of the first [floor(N/2)] elements of [L] with each of the remaining
    [ceil(N/2)], then the square list pairing each folder with itself, of
    total length [N + floor(N/2) * ceil(N/2) + N]. *)
Theorem scan_root_candidate_index (s : State) (names : list string) :
  fs (world s) !! root_dir (self s) = Some (Dir names) ->
  let L := singular_list (root_dir (self s)) names in
  let N := length (List.filter is_measurement names) in
  exists idx s',
    _scan_root s = (Ok idx, s') /\ self s' = self s /\
    length L = N /\ Forall (fun d => snd d = None) L /\
    (augment (self s) = false -> idx = L) /\
    (augment (self s) = true ->
       idx = (L ++ cross_list L ++ square_list L)%list /\
       Forall (fun d => snd d <> None) (cross_list L ++ square_list L)%list /\
       length idx = (N + (N / 2) * ((N + 1) / 2) + N)%nat).
Proof.
  intros Hdir L N.
  assert (HL : length L = N) by (unfold L, singular_list; apply length_map).
  do 2 eexists. split; [apply scan_root_run, Hdir|]. fold L.
  split; [reflexivity|]. split; [exact HL|].
  split; [apply Forall_map_all; reflexivity|].
  split; intros ->; [reflexivity|].
  split; [reflexivity|]. split.
  - apply Forall_app. split.
    + apply Forall_flat_map_all. intros a. apply Forall_map_all. discriminate.
    + apply Forall_map_all. discriminate.
  - rewrite !length_app, length_cross_list. unfold square_list.
    rewrite length_map, HL. lia.
Qed.

Lemma scan_root_candidate_index_witness :
  let s := mkState (lab_world 6 3 [])
             (blank "data" 1400 false None (15 # 100) (450, 690)%Z true true) in
  let L := [("data/A", None); ("data/B", None)] in
  exists idx s',
    _scan_root s = (Ok idx, s') /\ self s' = self s /\
    length L = 2 /\ Forall (fun d => snd d = None) L /\
    (augment (self s) = false -> idx = L) /\
    (augment (self s) = true ->
       idx = (L ++ cross_list L ++ square_list L)%list /\
       Forall (fun d => snd d <> None) (cross_list L ++ square_list L)%list /\
       length idx = (2 + (2 / 2) * ((2 + 1) / 2) + 2)%nat).
Proof.
  apply (scan_root_candidate_index
           (mkState (lab_world 6 3 [])
              (blank "data" 1400 false None (15 # 100)%Q (450, 690)%Z true true))
           ["Dark"; ".DS_Store"; "A"; "White"; "B"]).
  vm_compute. reflexivity.
Defined.

(** ** The Lazy Iterator *)

Lemma len_finalized s :
  finalized (self s) -> __len__ s = (Ok (length (meas_list (self s))), s).
Proof.
  unfold finalized, __len__, bind, attr, gets, ret.
  destruct (_ids (self s)) as [ids|] eqn:Hids; [|tauto]. intros <-.
  cbn. rewrite Hids. reflexivity.
Qed.

Lemma send_exhausted s :
  finalized (self s) -> length (meas_list (self s)) <= i (self s) ->
  send s = (Raise StopIteration, s).
Proof.
  intros Hf Hi. unfold send, bind at 1, attr at 1, gets. unfold bind at 1.
  rewrite (len_finalized s Hf).
  destruct (Nat.ltb_spec (i (self s)) (length (meas_list (self s)))); [lia|].
  reflexivity.
Qed.

Lemma send_produces s :
  finalized (self s) -> i (self s) < length (meas_list (self s)) ->
  let r := _read_meas_file (i (self s)) s in
  send s = (fst r, mkState (world (snd r))
                     (if is_ok (fst r) then set_i (i (self s) + 1) (self s) else self s))
  /\ same_disk (world s) (world (snd r)) /\ ~ exhausted (fst r).
Proof.
  intros Hf Hi r.
  destruct (ensures_read_meas_file (i (self s)) s) as [[Hd Hs] He]. fold r in Hd, Hs, He.
  split; [|split; [exact Hd|intros Hx; apply (He _ Hx); reflexivity]].
  unfold send, bind at 1, attr at 1, gets. unfold bind at 1.
  rewrite (len_finalized s Hf).
  destruct (Nat.ltb_spec (i (self s)) (length (meas_list (self s)))); [|lia].
  unfold bind, assign, modify, ret. fold r.
  destruct r as [[v|e] s1]; simpl in *; rewrite <- Hs; destruct s1; reflexivity.
Qed.

Lemma sends_length n s : length (fst (sends n s)) = n.
Proof.
  revert s. induction n as [|n IH]; intros s; simpl; [reflexivity|].
  destruct (send s) as [r s1]. specialize (IH s1).
  destruct (sends n s1) as [rs s2]. simpl in *. congruence.
Qed.

Lemma sends_exhausted n s :
  finalized (self s) -> length (meas_list (self s)) <= i (self s) ->
  sends n s = (replicate n (Raise StopIteration), s).
Proof.
  intros Hf Hi. induction n as [|n IH]; simpl; [reflexivity|].
  rewrite (send_exhausted s Hf Hi), IH. reflexivity.
Qed.

Lemma sends_from n : forall s,
  finalized (self s) ->
  let K := length (meas_list (self s)) in
  let c := i (self s) in
  let rs := fst (sends n s) in
  successes rs <= K - c /\
  (forall j j', rs !! j = Some (Raise StopIteration) -> j <= j' < n ->
                rs !! j' = Some (Raise StopIteration)) /\
  (Forall (fun r => is_ok r = true \/ exhausted r) rs ->
   forall j r, rs !! j = Some r ->
               if (c + j <? K)%nat then is_ok r = true else exhausted r).
Proof.
  induction n as [|n IH]; intros s Hf K c rs.
  { subst rs. simpl. split; [unfold successes; simpl; lia|].
    split; [intros; lia|]. intros _ j r Hj. discriminate. }
  destruct (Nat.lt_ge_cases c K) as [Hlt|Hge].
  - (* the cursor is inside the index *)
    destruct (send_produces s Hf Hlt) as (Hsend & _ & Hnx).
    subst rs. simpl. rewrite Hsend.
    set (r0 := fst (_read_meas_file (i (self s)) s)) in *.
    set (s1 := mkState _ _).
    assert (Hf1 : finalized (self s1)).
    { subst s1. simpl. destruct (is_ok r0); [|exact Hf].
      unfold finalized in *. simpl. exact Hf. }
    assert (HK1 : length (meas_list (self s1)) = K).
    { subst s1. simpl. destruct (is_ok r0); reflexivity. }
    assert (Hc1 : i (self s1) = if is_ok r0 then (c + 1)%nat else c).
    { subst s1. simpl. destruct (is_ok r0); reflexivity. }
    specialize (IH s1 Hf1). cbv zeta in IH. rewrite HK1, Hc1 in IH.
    destruct (sends n s1) as [rs s2] eqn:Hrs. cbn [fst] in IH |- *.
    destruct IH as (IH1 & IH2 & IH3).
    split; [|split].
    + unfold successes in *. simpl. destruct (is_ok r0); simpl; lia.
    + intros [|j] j' Hj Hjj; simpl in Hj.
      * exfalso. apply Hnx. injection Hj as Hj. exact Hj.
      * destruct j' as [|j']; [lia|]. simpl. eapply IH2; [exact Hj|lia].
    + intros Hall [|j] r Hj; simpl in *.
      * injection Hj as <-. replace (c + 0)%nat with c by lia.
        destruct (Nat.ltb_spec c K); [|lia].
        apply Forall_cons_1 in Hall as [[?|?] _]; [assumption|contradiction].
      * apply Forall_cons_1 in Hall as [Hr0 Hall].
        destruct Hr0 as [Hr0|Hr0]; [|contradiction].
        specialize (IH3 Hall j r Hj). rewrite Hr0 in IH3.
        replace (c + S j)%nat with (c + 1 + j)%nat by lia. exact IH3.
  - (* the cursor is at the end *)
    subst rs. rewrite (sends_exhausted (S n) s Hf Hge). cbn [fst].
    split; [|split].
    + unfold successes. clear. induction (S n); simpl; [lia|assumption].
    + intros j j' _ Hjj. apply lookup_replicate. split; [reflexivity|lia].
    + intros _ j r Hj. apply lookup_replicate in Hj as [-> _].
      destruct (Nat.ltb_spec (c + j) K); [lia|reflexivity].
Qed.

(** What a read returns depends on the files and on the object, not on the
    cursor nor on what was called before. *)
Lemma respects_fs_read_measurement p t r :
  respects (fun w1 w2 => fs w1 = fs w2) (read_measurement p t r).
Proof.
  unfold read_measurement, read_frame, read_spectrum, np_load, pd_read_csv.
  repeat first
    [ apply respects_ret | apply respects_raise | apply respects_lift
    | apply respects_modify; intros ? ? Hfs_eq; exact Hfs_eq
    | apply respects_gets; intros ? ? Hfs_eq; rewrite Hfs_eq; reflexivity
    | apply respects_bind; [|intros ?]
    | progress case_match ].
Qed.

Lemma respects_cursor_call {A} (c : M World A) :
  respects (fun w1 w2 => fs w1 = fs w2) c -> respects same_but_cursor (call c).
Proof.
  intros Hc s1 s2 [Hfs Hself]. unfold call.
  destruct (Hc (world s1) (world s2) Hfs) as [Hr Hw].
  destruct (c (world s1)) as [r1 w1], (c (world s2)) as [r2 w2]. simpl in *.
  split; [exact Hr|]. split; [exact Hw|exact Hself].
Qed.

Ltac resp_cursor :=
  repeat first
    [ apply respects_ret | apply respects_raise | apply respects_lift
    | apply respects_cursor_call, respects_fs_read_measurement
    | apply respects_gets; intros ? ? [_ Hself_eq];
        first [ exact (f_equal meas_list Hself_eq) | exact (f_equal int_time Hself_eq)
              | exact (f_equal dark_meas Hself_eq) | exact (f_equal white_meas Hself_eq) ]
    | apply respects_bind; [|intros ?]
    | progress case_match ].

Lemma respects_cursor_read_meas_file index :
  respects same_but_cursor (_read_meas_file index).
Proof.
  unfold _read_meas_file, _read_meas_file_singular, _normalize_measurement.
  resp_cursor.
Qed.

(** On a dataset whose remaining samples can all be read, a run of [n]
    calls produces them in the order of the index and then signals
    exhaustion for good. *)
Lemma sends_readable n : forall s,
  finalized (self s) ->
  (forall k, i (self s) <= k < length (meas_list (self s)) ->
             is_ok (fst (_read_meas_file k s)) = true) ->
  fst (sends n s) =
    (map (fun k => fst (_read_meas_file k s))
         (seq (i (self s)) (Nat.min n (length (meas_list (self s)) - i (self s))))
     ++ replicate (n - (length (meas_list (self s)) - i (self s))) (Raise StopIteration))%list.
Proof.
  induction n as [|n IH]; intros s Hf Hread; [reflexivity|].
  destruct (Nat.lt_ge_cases (i (self s)) (length (meas_list (self s)))) as [Hlt|Hge].
  - destruct (send_produces s Hf Hlt) as (Hsend & Hd & _).
    simpl sends. rewrite Hsend.
    rewrite (Hread (i (self s))) by lia.
    set (s1 := mkState _ _).
    assert (Hrel : same_but_cursor s1 s).
    { split; [apply Hd|]. subst s1. cbn. destruct (self s); reflexivity. }
    assert (Hsame : forall k, fst (_read_meas_file k s1) = fst (_read_meas_file k s)).
    { intros k. apply (respects_cursor_read_meas_file k s1 s Hrel). }
    specialize (IH s1). 
    assert (HK : length (meas_list (self s1)) = length (meas_list (self s))) by reflexivity.
    assert (Hc : i (self s1) = S (i (self s))) by (subst s1; cbn; lia).
    rewrite HK, Hc in IH.
    destruct (sends n s1) as [rs s2]. cbn [fst] in *.
    rewrite IH.
    + replace (Nat.min (S n) (length (meas_list (self s)) - i (self s)))
        with (S (Nat.min n (length (meas_list (self s)) - S (i (self s))))) by lia.
      replace (S n - (length (meas_list (self s)) - i (self s)))
        with (n - (length (meas_list (self s)) - S (i (self s)))) by lia.
      cbn [seq map]. rewrite <- app_comm_cons. f_equal. f_equal.
      apply map_ext. intros k. apply Hsame.
    + exact Hf.
    + intros k Hk. rewrite Hsame. apply Hread. lia.
  - rewrite (sends_exhausted (S n) s Hf Hge). cbn [fst].
    replace (length (meas_list (self s)) - i (self s)) with 0 by lia.
    rewrite Nat.min_0_r, Nat.sub_0_r. reflexivity.
Qed.

Lemma successes_app {A} (l k : list (result A)) :
  successes (l ++ k) = successes l + successes k.
Proof. unfold successes. rewrite List.filter_app, length_app. reflexivity. Qed.

Lemma successes_exhausted {A} n : successes (replicate n (@Raise A StopIteration)) = 0.
Proof. unfold successes. induction n; simpl; [reflexivity|assumption]. Qed.

Lemma successes_all_ok {A B} (f : A -> result B) (l : list A) :
  Forall (fun k => is_ok (f k) = true) l -> successes (map f l) = length l.
Proof.
  unfold successes. induction 1 as [|k l Hk _ IH]; simpl; [reflexivity|].
  rewrite Hk. simpl. f_equal. exact IH.
Qed.

(** C7. For a finalized dataset with [K] surviving samples and the cursor at
    its start, in any run of [n] produce-next calls: at most [K] calls
    succeed, and once a call has signalled exhaustion ([StopIteration],
    which no read failure raises) every later call signals it too.  When
    the [K] samples can be read, the run is exactly this: the first [K]
    calls return the samples in the order of the index, each a success, and
    the call [K + 1] and every later one signal exhaustion, so that the
    number of successes is [min n K]. *)
Theorem iterator_exhaustion (s : State) (n : nat) :
  finalized (self s) -> i (self s) = 0 ->
  let K := length (meas_list (self s)) in
  let rs := fst (sends n s) in
  length rs = n /\
  successes rs <= K /\
  (forall j j', rs !! j = Some (Raise StopIteration) -> j <= j' < n ->
                rs !! j' = Some (Raise StopIteration)) /\
  ((forall k, k < K -> is_ok (fst (_read_meas_file k s)) = true) ->
   rs = (map (fun k => fst (_read_meas_file k s)) (seq 0 (Nat.min n K))
         ++ replicate (n - K) (Raise StopIteration))%list /\
   successes rs = Nat.min n K).
Proof.
  intros Hf Hi K rs.
  destruct (sends_from n s Hf) as (H1 & H2 & _). rewrite Hi in H1.
  split; [apply sends_length|]. split; [fold K rs in H1; lia|].
  split; [exact H2|]. intros Hread.
  assert (Hrs : rs = (map (fun k => fst (_read_meas_file k s)) (seq 0 (Nat.min n K))
                      ++ replicate (n - K) (Raise StopIteration))%list).
  { subst rs. rewrite (sends_readable n s Hf).
    - rewrite Hi, Nat.sub_0_r. reflexivity.
    - intros k Hk. apply Hread. fold K in Hk. lia. }
  split; [exact Hrs|]. rewrite Hrs, successes_app, successes_exhausted, Nat.add_0_r.
  rewrite successes_all_ok; [apply length_seq|].
  apply Forall_forall. intros k Hk. apply Hread.
  apply list_elem_of_In, in_seq in Hk. lia.
Qed.

Lemma iterator_exhaustion_witness :
  let s := lab_state 6 3 1400 false [] in
  let rs := fst (sends 4 s) in
  length rs = 4 /\
  successes rs <= 2 /\
  (forall j j', rs !! j = Some (Raise StopIteration) -> j <= j' < 4 ->
                rs !! j' = Some (Raise StopIteration)) /\
  rs = [fst (_read_meas_file 0 s); fst (_read_meas_file 1 s);
        Raise StopIteration; Raise StopIteration] /\
  is_ok (fst (_read_meas_file 0 s)) = true /\
  is_ok (fst (_read_meas_file 1 s)) = true /\
  successes rs = 2.
Proof.
  intros s rs.
  assert (Hread : forall k, k < 2 -> is_ok (fst (_read_meas_file k s)) = true).
  { intros [|[|k]] Hk; [vm_compute; reflexivity|vm_compute; reflexivity|lia]. }
  destruct (iterator_exhaustion (lab_state 6 3 1400 false []) 4 ltac:(vm_compute; reflexivity)
              eq_refl) as (H1 & H2 & H3 & H4).
  destruct (H4 Hread) as [H5 H6].
  split; [exact H1|]. split; [exact H2|]. split; [exact H3|].
  split; [exact H5|]. split; [apply Hread; lia|]. split; [apply Hread; lia|exact H6].
Defined.

(** On the example dataset the run has no read failure: two samples, then
    exhaustion for good. *)
Example lab_run :
  map is_ok (fst (sends 4 (lab_state 6 3 1400 false []))) = [true; true; false; false] /\
  drop 2 (fst (sends 4 (lab_state 6 3 1400 false []))) =
    [Raise StopIteration; Raise StopIteration].
Proof. vm_compute. split; reflexivity. Qed.

(** C2 fails on the code when shuffling is enabled: the generator's draw
    puts the permutation [[1; 0]] in [_ids], and the first produce-next call
    still materializes position 0 of the index, folder [A], where the claim
    has position [_ids[0] = 1], folder [B]. *)
Theorem send_ignores_the_permutation :
  let s := lab_state 6 3 1400 true [0] in
  shuffle (self s) = true /\
  _ids (self s) = Some [1; 0] /\
  meas_list (self s) = [("data/A", None); ("data/B", None)] /\
  i (self s) = 0 /\
  fst (send s) = fst (_read_meas_file 0 s) /\
  fst (send s) <> fst (_read_meas_file 1 s) /\
  i (self (snd (send s))) = 1.
Proof.
  vm_compute. repeat split; discriminate.
Qed.

(** ** The cleaning pass *)

Lemma ensures_remove meas :
  ensures cleans not_stop
    (l <- attr meas_list ;;
     l' <- lift (list_remove meas l) ;;
     assign (set_meas_list l')).
Proof.
  intros s. unfold bind, attr, gets, lift, assign, modify. simpl.
  destruct (list_remove meas (meas_list (self s))) as [l'|e] eqn:Hrm; simpl.
  - split; [|discriminate]. split; [reflexivity|]. split; [reflexivity|].
    simpl. apply list_remove_length in Hrm. lia.
  - split; [reflexivity|]. intros e' [= <-]. eapply list_remove_raises, Hrm.
Qed.

#[local] Hint Resolve ensures_remove : ens.

Lemma ensures_clean_step meas : ensures cleans not_stop (clean_step meas).
Proof. unfold clean_step. ens_state. Qed.

#[local] Hint Resolve ensures_clean_step : ens.

Lemma ensures_clean_loop fuel : forall k, ensures cleans not_stop (clean_loop fuel k).
Proof.
  induction fuel as [|fuel IH]; intros k; simpl; [apply (ensures_ret _ _)|].
  ens_state.
Qed.

(** The loop always ends by itself: once [fuel] covers what is left of the
    list, more fuel changes nothing. *)
Lemma clean_loop_fuel fuel : forall k s,
  length (meas_list (self s)) - k <= fuel ->
  clean_loop (S fuel) k s = clean_loop fuel k s.
Proof.
  induction fuel as [|fuel IH]; intros k s Hlen.
  - simpl. unfold bind, attr, gets. simpl.
    rewrite (lookup_ge_None_2 (meas_list (self s)) k) by lia. reflexivity.
  - change (clean_loop (S (S fuel)) k s) with
      ((l <- attr meas_list ;;
        match l !! k with
        | None => ret tt
        | Some meas => clean_step meas ;; clean_loop (S fuel) (S k)
        end) s).
    change (clean_loop (S fuel) k s) with
      ((l <- attr meas_list ;;
        match l !! k with
        | None => ret tt
        | Some meas => clean_step meas ;; clean_loop fuel (S k)
        end) s).
    unfold bind at 1 3, attr, gets. cbn beta iota.
    destruct (meas_list (self s) !! k) as [meas|] eqn:Hk; [|reflexivity].
    apply lookup_lt_Some in Hk.
    destruct (ensures_clean_step meas s) as [(_ & _ & Hle) _].
    unfold bind. destruct (clean_step meas s) as [[[]|e] s1]; [|reflexivity].
    simpl in Hle. apply IH. lia.
Qed.

Lemma clean_loop_enough_fuel m : forall s,
  clean_loop (length (meas_list (self s)) + m) 0 s
  = clean_loop (length (meas_list (self s))) 0 s.
Proof.
  induction m as [|m IH]; intros s.
  - rewrite Nat.add_0_r. reflexivity.
  - rewrite Nat.add_succ_r, clean_loop_fuel by lia. apply IH.
Qed.

(** ** Finalization: cache or clean, then the permutation *)

Lemma set_cache_dir_id o v : cache_dir o = v -> set_cache_dir v o = o.
Proof. destruct o; simpl. intros ->. reflexivity. Qed.

Lemma init_dataset_blocks (s : State) :
  let dir := cache_location (self s) in
  let s0 := mkState (world s) (set_cache_dir (Some dir) (self s)) in
  let s1 := mkState (log (call_exists (cache_file dir)) (world s)) (self s0) in
  _init_dataset s =
    ((if bool_decide (is_Some (fs (world s) !! cache_file dir)) && cache (self s)
      then init_load dir else init_clean dir) ;; init_tail) s1.
Proof.
  intros dir s0 s1. subst s1 s0 dir.
  unfold _init_dataset, cache_location.
  unfold bind at 1, attr at 1, gets at 1.
  destruct (cache_dir (self s)) as [d|] eqn:Hcd.
  - unfold bind at 1, ret at 1. unfold bind at 1, attr at 1, gets at 1.
    rewrite Hcd. cbn [default].
    unfold bind at 1, call at 1, os_path_exists. cbn.
    rewrite (set_cache_dir_id (self s) (Some d) Hcd).
    destruct (bool_decide _); cbn; [destruct (cache (self s))|]; reflexivity.
  - unfold bind at 1, assign at 1, modify at 1.
    unfold bind at 1, attr at 1, gets at 1. cbn [self set_cache_dir cache_dir default].
    unfold bind at 1, call at 1, os_path_exists. cbn.
    destruct (bool_decide _); cbn; [destruct (cache (self s))|]; reflexivity.
Qed.

Lemma set_rng_set_rng r r' w : set_rng r' (set_rng r w) = set_rng r' w.
Proof. reflexivity. Qed.

Lemma set_rng_id w : set_rng (rng w) w = w.
Proof. destruct w; reflexivity. Qed.

Lemma random_interval_run max w :
  exists j r, random_interval max w = (Ok j, set_rng r w) /\ j <= max.
Proof.
  unfold random_interval. destruct (rng w) as [|d ds] eqn:Hr.
  - exists 0, (rng w). rewrite set_rng_id. split; [reflexivity|lia].
  - exists (d mod S max), ds. split; [reflexivity|].
    pose proof (Nat.mod_upper_bound d (S max)). lia.
Qed.

Lemma replace_Permutation (t : list nat) : forall k b h,
  t !! k = Some b -> b :: <[k := h]> t ≡ₚ h :: t.
Proof.
  induction t as [|c t IH]; intros [|k] b h Hk; simpl in *; try discriminate.
  - injection Hk as ->. apply Permutation_swap.
  - rewrite (Permutation_swap c b). rewrite (IH k b h Hk). apply Permutation_swap.
Qed.

(** Exchanging two elements permutes the list. *)
Lemma swap_Permutation (x : list nat) : forall a b, swap x a b ≡ₚ x.
Proof.
  unfold swap. induction x as [|h t IH]; intros a b; [destruct a; reflexivity|].
  destruct a as [|a], b as [|b]; simpl.
  - reflexivity.
  - destruct (t !! b) as [xb|] eqn:Hb; [|reflexivity]. simpl.
    apply replace_Permutation, Hb.
  - destruct (t !! a) as [xa|] eqn:Ha; [|reflexivity]. simpl.
    apply replace_Permutation, Ha.
  - specialize (IH a b).
    destruct (t !! a) as [xa|]; [|reflexivity].
    destruct (t !! b) as [xb|]; [|reflexivity].
    simpl. rewrite IH. reflexivity.
Qed.

Lemma length_swap x a b : length (swap x a b) = length x.
Proof.
  unfold swap. repeat case_match; try reflexivity.
  rewrite !length_insert. reflexivity.
Qed.

(** The shuffle consumes draws, touches nothing else, and returns a
    permutation of its argument. *)
Lemma shuffle_from_run k : forall x w,
  exists x' r, shuffle_from k x w = (Ok x', set_rng r w) /\ x' ≡ₚ x.
Proof.
  induction k as [|k IH]; intros x w; simpl.
  - exists x, (rng w). rewrite set_rng_id. split; reflexivity.
  - unfold bind. destruct (random_interval_run (S k) w) as (j & r & -> & _).
    destruct (IH (swap x (S k) j) (set_rng r w)) as (x' & r' & -> & Hp).
    exists x', r'. split; [reflexivity|]. rewrite Hp. apply swap_Permutation.
Qed.

Lemma np_random_shuffle_run x w :
  exists x' r,
    np_random_shuffle x w = (Ok x', set_rng r (log (call_shuffle (length x)) w))
    /\ x' ≡ₚ x.
Proof.
  unfold np_random_shuffle, bind, modify.
  destruct (shuffle_from_run (length x - 1) x (log (call_shuffle (length x)) w))
    as (x' & r & -> & Hp).
  exists x', r. split; [reflexivity|exact Hp].
Qed.

(** The statements after the test set [_ids] to a permutation of the
    positions of the index: the identity without shuffling. *)
Lemma init_tail_run s :
  exists ids r,
    init_tail s =
      (Ok tt,
       mkState (if shuffle (self s)
                then set_rng r (log (call_shuffle (length (meas_list (self s)))) (world s))
                else world s)
               (set__ids (Some ids) (self s)))
    /\ ids ≡ₚ np_arange (length (meas_list (self s)))
    /\ (shuffle (self s) = false -> ids = np_arange (length (meas_list (self s))))
    /\ length ids = length (meas_list (self s)).
Proof.
  destruct s as [w o]. pose proof np_random_shuffle_run as Hrun.
  unfold init_tail. revert Hrun. generalize np_random_shuffle. intros f Hrun.
  unfold bind, attr, gets, assign, modify, call. simpl.
  destruct (shuffle o) eqn:Hsh; simpl.
  - unfold np_arange.
    destruct (Hrun (seq 0 (length (meas_list o))) w) as (x' & r & -> & Hp).
    exists x', r. simpl. rewrite length_seq.
    split; [reflexivity|]. split; [exact Hp|]. split; [discriminate|].
    rewrite Hp. apply length_seq.
  - exists (np_arange (length (meas_list o))), []. split; [reflexivity|].
    split; [reflexivity|]. split; [reflexivity|].
    unfold np_arange. apply length_seq.
Qed.

Lemma init_load_run dir s l :
  fs (world s) !! cache_file dir = Some (Pickle l) ->
  init_load dir s =
    (Ok tt,
     mkState
       (log (call_pickle_load (cache_file dir))
          (log (call_print "Found dataset cache at: .spectre_cache/dataset_cache.json, skipping data cleaning step")
             (world s)))
       (set_meas_list l (self s))).
Proof.
  destruct s as [w o]. simpl. intros Hrec.
  unfold init_load, bind, call, print, pickle_load, bind, modify, gets, assign, modify.
  simpl. rewrite Hrec. reflexivity.
Qed.

(** C8. When caching is enabled and a cache record exists at the cache
    location, finalization loads the filtered index from the record: the
    loaded list becomes the working index, no cleaning is computed and no
    spectrum is read -- the only calls made are the existence test, the
    message, the load and, when enabled, the shuffle -- and the file system
    is left as it was. *)
Theorem cache_hit_skips_cleaning (s : State) (l : list descriptor) :
  cache (self s) = true ->
  fs (world s) !! cache_file (cache_location (self s)) = Some (Pickle l) ->
  exists s',
    _init_dataset s = (Ok tt, s') /\
    meas_list (self s') = l /\
    finalized (self s') /\
    fs (world s') = fs (world s) /\
    trace (world s') =
      (trace (world s) ++
       [call_exists (cache_file (cache_location (self s)));
        call_print "Found dataset cache at: .spectre_cache/dataset_cache.json, skipping data cleaning step";
        call_pickle_load (cache_file (cache_location (self s)))] ++
       (if shuffle (self s) then [call_shuffle (length l)] else []))%list.
Proof.
  intros Hc Hrec. rewrite init_dataset_blocks. cbv zeta.
  rewrite Hrec, Hc.
  replace (bool_decide (is_Some (Some (Pickle l))) && true) with true
    by (symmetry; apply andb_true_iff; split; [apply bool_decide_eq_true; eauto|reflexivity]).
  unfold bind at 1. rewrite (init_load_run _ _ l) by exact Hrec.
  match goal with |- context [init_tail ?st] =>
    destruct (init_tail_run st) as (ids & r & -> & _ & _ & Hlen) end.
  simpl in Hlen. eexists. split; [reflexivity|]. simpl.
  split; [reflexivity|]. split; [unfold finalized; simpl; exact Hlen|].
  destruct (shuffle (self s)); simpl; split; try reflexivity;
    rewrite <- !app_assoc; reflexivity.
Qed.

Lemma cache_hit_skips_cleaning_witness :
  let s := mkState (mkWorld cached_disk (fun _ => false) [] [])
             (blank "data" 1400 false None (15 # 100) (450, 690)%Z true false) in
  exists s',
    _init_dataset s = (Ok tt, s') /\
    meas_list (self s') = [("data/B", None)] /\
    finalized (self s') /\
    fs (world s') = fs (world s) /\
    trace (world s') =
      [call_exists ".spectre_cache/dataset_cache.pickle";
       call_print "Found dataset cache at: .spectre_cache/dataset_cache.json, skipping data cleaning step";
       call_pickle_load ".spectre_cache/dataset_cache.pickle"].
Proof.
  apply (cache_hit_skips_cleaning
           (mkState (mkWorld cached_disk (fun _ => false) [] [])
              (blank "data" 1400 false None (15 # 100)%Q (450, 690)%Z true false))
           [("data/B", None)]).
  - reflexivity.
  - vm_compute. reflexivity.
Defined.

Lemma mkdir_run dir s :
  denied (world s) dir = false ->
  call (try_except_pass (os_mkdir dir) FileExistsError) s =
    (Ok tt,
     mkState (set_fs (with_dir dir (fs (world s))) (log (call_mkdir dir) (world s)))
             (self s)).
Proof.
  destruct s as [w o]. simpl. intros Hd.
  unfold call, try_except_pass, os_mkdir, bind, modify, gets, raise, with_dir. simpl.
  rewrite Hd. destruct (fs w !! dir) as [n|] eqn:Hn; simpl; reflexivity.
Qed.

Lemma with_dir_lookup dir f : is_Some (with_dir dir f !! dir).
Proof.
  unfold with_dir. destruct (f !! dir) as [n|] eqn:Hn.
  - rewrite Hn. eauto.
  - rewrite lookup_insert_eq. eauto.
Qed.

Lemma with_dir_fresh dir f : f !! dir = None -> with_dir dir f !! dir = Some (Dir []).
Proof. intros Hn. unfold with_dir. rewrite Hn. apply lookup_insert_eq. Qed.

(** What the cleaning branch does to the file system, whether it returns or
    a read fails on the way: the directory, and with caching enabled at most
    the cache file, which is never written over a directory. *)
Lemma init_clean_fs dir s r s' :
  denied (world s) dir = false ->
  init_clean dir s = (r, s') ->
  let fs1 := with_dir dir (fs (world s)) in
  fs (world s') = fs1 \/
  (cache (self s) = true /\
   exists l, fs (world s') = <[cache_file dir := Pickle l]> fs1 /\
             forall names, fs1 !! cache_file dir <> Some (Dir names)).
Proof.
  intros Hd Hrun fs1. revert Hrun. unfold init_clean.
  unfold bind at 1, call at 1, print at 1, modify at 1. cbn [fst snd world self].
  unfold bind at 1. rewrite mkdir_run by exact Hd. cbn [world self fs denied log].
  set (s1 := mkState _ _).
  unfold bind at 1, attr at 1, gets at 1. unfold bind at 1.
  destruct (ensures_clean_loop (length (meas_list (self s1))) 0 s1)
    as [((Hfs & _ & _) & Ho & _) _].
  destruct (clean_loop _ 0 s1) as [[[]|e] s2]; cbn [fst snd] in *;
    [|intros [= <- <-]; left; rewrite Hfs; reflexivity].
  assert (Hc : cache (self s2) = cache (self s)).
  { change (cache (set_meas_list [] (self s2)) = cache (self s)).
    rewrite Ho. reflexivity. }
  unfold bind at 1, attr at 1, gets at 1. rewrite Hc.
  destruct (cache (self s)) eqn:Hcs;
    [|intros [= <- <-]; left; rewrite Hfs; reflexivity].
  destruct s2 as [w2 o2]. simpl in Hfs.
  unfold bind, call, print, modify, attr, gets, pickle_dump, bind, modify, gets, raise.
  simpl. rewrite Hfs. subst s1. simpl. fold fs1.
  destruct (fs1 !! cache_file dir) as [[names| | | |]|] eqn:Hp; simpl;
    try (intros [= <- <-]; left; simpl; rewrite Hfs; reflexivity);
    (destruct (denied w2 (cache_file dir)); simpl;
      [intros [= <- <-]; left; simpl; rewrite Hfs; reflexivity|]);
    intros [= <- <-]; right; (split; [reflexivity|]); eexists;
    (split; [simpl; rewrite Hfs; reflexivity|]);
    intros names'; discriminate.
Qed.

Lemma length_append (a b : string) :
  String.length (a +:+ b) = String.length a + String.length b.
Proof. induction a as [|c a IH]; simpl; [reflexivity|]. rewrite IH. reflexivity. Qed.

(** The cache file is not the cache directory. *)
Lemma cache_file_neq dir : cache_file dir <> dir.
Proof.
  unfold cache_file, os_path_join.
  change (startswith "dataset_cache.pickle" "/") with false. cbv iota.
  intros H. apply (f_equal String.length) in H. revert H.
  destruct (_ || _); rewrite !length_append; simpl; lia.
Qed.

Lemma with_dir_other dir p f : p <> dir -> with_dir dir f !! p = f !! p.
Proof.
  intros Hp. unfold with_dir. destruct (f !! dir); [reflexivity|].
  apply lookup_insert_ne. congruence.
Qed.



(** C1 fails on the code.  Both folders of [lab_disk 2 2] have mean signal
    [1/10], below the threshold [15/100].  The pass removes [A]; the list
    iterator, already past position 0, then finds the shortened list
    exhausted and never examines [B], which stays in the working index. *)
Theorem cleaning_keeps_a_weak_descriptor :
  let s := lab_state 2 2 1400 false [] in
  let s0 := mkState (lab_world 2 2 []) (self s) in
  fst (_scan_root s0) = Ok [("data/A", None); ("data/B", None)] /\
  clean_threshold (self s) = (15 # 100)%Q /\
  (forall d, d ∈ [("data/A", None); ("data/B", None)] ->
     exists m, mean_signal (self s) (world s) d = Ok (Some m) /\
               (m == 1 # 10)%Q /\
               float_lt (Some m) (clean_threshold (self s)) = true) /\
  meas_list (self s) = [("data/B", None)].
Proof.
  vm_compute. split; [reflexivity|]. split; [reflexivity|]. split; [|reflexivity].
  intros d Hd. apply list_elem_of_In in Hd.
  destruct Hd as [<-|[<-|[]]]; eexists; (split; [reflexivity|]);
    split; reflexivity.
Qed.

(** A spectrum read returns what the file system holds, whatever was
    called before. *)
Lemma respects_read_spectrum p r :
  respects (fun w1 w2 => fs w1 = fs w2) (read_spectrum p r).
Proof.
  unfold read_spectrum, pd_read_csv.
  repeat first
    [ apply respects_ret | apply respects_raise | apply respects_lift
    | apply respects_modify; intros ? ? H; exact H
    | apply respects_gets; intros ? ? H; rewrite H; reflexivity
    | apply respects_bind; [|intros ?]
    | progress case_match ].
Qed.

Lemma read_spectrum_run p r w :
  exists w', read_spectrum p r w = (fst (read_spectrum p r w), w') /\ same_disk w w'.
Proof.
  destruct (ensures_read_spectrum p r w) as [Hd _].
  destruct (read_spectrum p r w) as [x w']. exists w'. split; [reflexivity|exact Hd].
Qed.

(** The comparison is strict, and false on nan. *)
Lemma float_lt_iff (m : option Q) (t : Q) :
  float_lt m t = true <-> exists q, m = Some q /\ (q < t)%Q.
Proof.
  destruct m as [q|]; simpl.
  - rewrite Qltb_lt. split; [eauto|]. intros (q' & [= <-] & H). exact H.
  - split; [discriminate|]. intros (q' & [=] & _).
Qed.

(** One iteration of the pass decides as the cleaning rule says: the
    descriptor is removed when its mean signal is strictly below the
    threshold and kept otherwise, so also when the two are equal. *)
Lemma clean_step_decides (meas : descriptor) (s : State) (m : option Q) :
  mean_signal (self s) (world s) meas = Ok m ->
  exists w', same_disk (world s) w' /\
    clean_step meas s =
      if float_lt m (clean_threshold (self s)) then
        match list_remove meas (meas_list (self s)) with
        | Ok l' => (Ok tt, mkState w' (set_meas_list l' (self s)))
        | Raise e => (Raise e, mkState w' (self s))
        end
      else (Ok tt, mkState w' (self s)).
Proof.
  destruct s as [w o]. destruct meas as [a [b|]]; cbn [self world];
    unfold mean_signal, clean_step; intros Hm.
  - destruct (read_spectrum_run a default_lamb_range w) as (w1 & Ha & Hd1).
    destruct (read_spectrum_run b default_lamb_range w1) as (w2 & Hb & Hd2).
    assert (Hb' : fst (read_spectrum b default_lamb_range w1)
                  = fst (read_spectrum b default_lamb_range w)).
    { apply respects_read_spectrum. apply Hd1. }
    rewrite Hb' in Hb. clear Hb'.
    exists w2. split; [etransitivity; eassumption|].
    destruct (fst (read_spectrum a default_lamb_range w)) as [sa|] ; [|discriminate].
    unfold rbind at 2 in Hm.
    destruct (normalize_array sa _ _) as [na|] eqn:Hna; [|discriminate].
    unfold rbind at 1 in Hm.
    destruct (fst (read_spectrum b default_lamb_range w)) as [sb|]; [|discriminate].
    unfold rbind at 2 in Hm.
    destruct (normalize_array sb _ _) as [nb|] eqn:Hnb; [|discriminate].
    unfold rbind at 1 in Hm.
    destruct (np_mul na nb) as [sp|] eqn:Hsp; [|discriminate].
    injection Hm as <-.
    unfold bind, attr, gets, call, lift, assign, modify, ret. cbn [self world].
    rewrite Ha. cbn [self world]. rewrite Hna. rewrite Hb. cbn [self world].
    rewrite Hnb, Hsp. cbn [self world].
    destruct (float_lt (np_mean sp) (clean_threshold o)); [|reflexivity].
    cbn [self world].
    destruct (list_remove (a, Some b) (meas_list o)); reflexivity.
  - destruct (read_spectrum_run a default_lamb_range w) as (w1 & Ha & Hd1).
    exists w1. split; [exact Hd1|].
    destruct (fst (read_spectrum a default_lamb_range w)) as [sa|] ; [|discriminate].
    unfold rbind at 2 in Hm.
    destruct (normalize_array sa _ _) as [na|] eqn:Hna; [|discriminate].
    injection Hm as <-.
    unfold bind, attr, gets, call, lift, assign, modify, ret. cbn [self world].
    rewrite Ha. cbn [self world]. rewrite Hna. cbn [self world].
    destruct (float_lt (np_mean na) (clean_threshold o)); [|reflexivity].
    cbn [self world].
    destruct (list_remove (a, None) (meas_list o)); reflexivity.
Qed.

(** ** What a constructed object looks like *)

Lemma bind_Ok {S A B} (c : M S A) (k : A -> M S B) s b s' :
  bind c k s = (Ok b, s') ->
  exists a s1, c s = (Ok a, s1) /\ k a s1 = (Ok b, s').
Proof.
  unfold bind. destruct (c s) as [[a|e] s1]; [eauto|discriminate].
Qed.

#[local] Instance keeps_cursor_preorder : PreOrder keeps_cursor.
Proof.
  split.
  - intros s. reflexivity.
  - intros a b c Hab Hbc. unfold keeps_cursor in *. congruence.
Qed.

Lemma ensures_call_any {A} (J : State -> State -> Prop) (c : M World A) :
  (forall s w', J s (mkState w' (self s))) -> ensures J any_exn (call c).
Proof.
  intros HJ s. unfold call. destruct (c (world s)) as [r w']. simpl.
  split; [apply HJ|]. intros e _. exact I.
Qed.

Ltac ens_cursor :=
  repeat first
    [ apply (ensures_ret _ _)
    | apply (ensures_gets _ _)
    | assumption
    | apply (ensures_bind _ _); [|intros ?]
    | apply (ensures_raise _ _); exact I
    | apply (ensures_modify _ _); intros ?; reflexivity
    | apply (ensures_lift _ _); intros ? _; exact I
    | apply (ensures_attr _ _)
    | apply ensures_call_any; intros; reflexivity
    | progress case_match ].

Lemma cursor_clean_loop fuel : forall k, ensures keeps_cursor any_exn (clean_loop fuel k).
Proof.
  induction fuel as [|fuel IH]; intros k; simpl; [apply (ensures_ret _ _)|].
  apply (ensures_bind _ _); [apply (ensures_attr _ _)|]. intros l.
  destruct (l !! k); [|apply (ensures_ret _ _)].
  apply (ensures_bind _ _); [|intros ?; apply IH].
  unfold clean_step. ens_cursor.
Qed.

Lemma cursor_init_dataset : ensures keeps_cursor any_exn _init_dataset.
Proof.
  unfold _init_dataset. pose proof cursor_clean_loop as Hloop. ens_cursor.
  apply Hloop.
Qed.

(** A successful finalization leaves a permutation as long as the index,
    and the cursor where it was. *)
Lemma init_dataset_finalizes s s' :
  _init_dataset s = (Ok tt, s') ->
  finalized (self s') /\ i (self s') = i (self s).
Proof.
  intros Hrun. split.
  - rewrite init_dataset_blocks in Hrun. cbv zeta in Hrun.
    apply bind_Ok in Hrun as ([] & s2 & _ & Htail).
    destruct (init_tail_run s2) as (ids & r & Heq & _ & _ & Hlen).
    rewrite Heq in Htail. injection Htail as <-.
    unfold finalized. simpl. exact Hlen.
  - destruct (cursor_init_dataset s) as [Hi _]. rewrite Hrun in Hi. exact Hi.
Qed.

Lemma ensures_scan_root : ensures reads not_stop _scan_root.
Proof. unfold _scan_root. ens_state. Qed.

Lemma ensures_read_reference : ensures reads not_stop _read_reference.
Proof. unfold _read_reference. ens_state. Qed.

(** Every object the constructor returns is finalized, with the cursor at
    the start and [num_meas] the length of the filtered index. *)
Lemma constructed_is_finalized root t sh cd thr r c a w o w' :
  __init__ root t sh cd thr r c a w = (Ok o, w') ->
  finalized o /\ i o = 0 /\ num_meas o = length (meas_list o).
Proof.
  unfold __init__. set (o0 := mkSPECTRE _ _ _ _ _ _ _ _ _ _ _ _ _ _ _).
  match goal with |- (let '(_, _) := ?b _ in _) = _ -> _ => set (body := b) end.
  destruct (body (mkState w o0)) as [x s] eqn:Hbody. destruct x as [[]|e]; [|discriminate].
  intros [= <- <-]. subst body.
  apply bind_Ok in Hbody as ([dark white] & s1 & Href & Hbody).
  destruct (ensures_read_reference (mkState w o0)) as [[_ Hs1] _].
  rewrite Href in Hs1. simpl in Hs1.
  apply bind_Ok in Hbody as ([] & s2 & Hs2 & Hbody).
  injection Hs2 as <-.
  apply bind_Ok in Hbody as (l & s3 & Hscan & Hbody).
  match type of Hscan with _scan_root ?st = _ =>
    destruct (ensures_scan_root st) as [[_ Hs3] _] end.
  rewrite Hscan in Hs3. simpl in Hs3.
  apply bind_Ok in Hbody as ([] & s4 & Hs4 & Hbody).
  injection Hs4 as <-.
  apply bind_Ok in Hbody as (n & s5 & Hlen & Hbody).
  injection Hbody as <-. simpl.
  unfold __len__ in Hlen.
  apply bind_Ok in Hlen as (ids & s6 & Hids & Hlen).
  injection Hids as <- <-. simpl in Hlen. rewrite Hs3, Hs1 in Hlen. simpl in Hlen.
  apply bind_Ok in Hlen as ([] & s7 & Hinit & Hlen).
  apply init_dataset_finalizes in Hinit as [Hfin Hi].
  simpl in Hi.
  apply bind_Ok in Hlen as (ids & s8 & Hids & Hlen).
  injection Hids as <- <-. injection Hlen as <- <-.
  unfold finalized in *. simpl.
  destruct (_ids (self s7)) as [ids|]; [|contradiction].
  simpl. repeat split; assumption.
Qed.

(** ** The wavelength range and the integration time *)

Lemma respects_call {A} (c : M World A) : respects differ_in_lamb (call c).
Proof.
  intros s1 s2 [Hw Ho]. unfold call. rewrite Hw.
  destruct (c (world s2)) as [r w]. simpl. split; [reflexivity|].
  split; [reflexivity|exact Ho].
Qed.

Lemma respects_attr {A} (f : SPECTRE -> A) :
  (forall o, f o = f (forget_lamb o)) -> respects differ_in_lamb (attr f).
Proof.
  intros Hf. apply respects_gets. intros s1 s2 [_ Ho].
  rewrite (Hf (self s1)), (Hf (self s2)), Ho. reflexivity.
Qed.

Lemma respects_assign (g : SPECTRE -> SPECTRE) :
  (forall o1 o2, forget_lamb o1 = forget_lamb o2 ->
                 forget_lamb (g o1) = forget_lamb (g o2)) ->
  respects differ_in_lamb (assign g).
Proof.
  intros Hg. apply respects_modify. intros s1 s2 [Hw Ho].
  split; [exact Hw|apply Hg, Ho].
Qed.

Lemma forget_lamb_setter (g : SPECTRE -> SPECTRE) :
  (forall o, forget_lamb (g o) = g (forget_lamb o)) ->
  forall o1 o2, forget_lamb o1 = forget_lamb o2 ->
                forget_lamb (g o1) = forget_lamb (g o2).
Proof. intros Hg o1 o2 H. rewrite !Hg, H. reflexivity. Qed.

Create HintDb resp discriminated.

Ltac resp :=
  repeat first
    [ apply respects_ret
    | apply respects_raise
    | apply respects_lift
    | apply respects_call
    | apply respects_attr; intros ?; reflexivity
    | apply respects_assign; apply forget_lamb_setter; intros ?; reflexivity
    | solve [auto with resp]
    | apply respects_bind; [|intros ?]
    | progress case_match ].

Lemma respects_read_reference : respects differ_in_lamb _read_reference.
Proof. unfold _read_reference. resp. Qed.

Lemma respects_scan_root : respects differ_in_lamb _scan_root.
Proof. unfold _scan_root. resp. Qed.

Lemma respects_normalize_measurement frame spectrum :
  respects differ_in_lamb (_normalize_measurement frame spectrum).
Proof. unfold _normalize_measurement. resp. Qed.

#[local] Hint Resolve respects_normalize_measurement : resp.

Lemma respects_read_meas_file_singular path :
  respects differ_in_lamb (_read_meas_file_singular path).
Proof. unfold _read_meas_file_singular. resp. Qed.

#[local] Hint Resolve respects_read_meas_file_singular : resp.

Lemma respects_read_meas_file index : respects differ_in_lamb (_read_meas_file index).
Proof. unfold _read_meas_file. resp. Qed.

Lemma respects_clean_step meas : respects differ_in_lamb (clean_step meas).
Proof. unfold clean_step. resp. Qed.

#[local] Hint Resolve respects_read_meas_file respects_clean_step : resp.

Lemma respects_clean_loop fuel : forall k, respects differ_in_lamb (clean_loop fuel k).
Proof.
  induction fuel as [|fuel IH]; intros k; simpl; [apply respects_ret|]. resp.
Qed.

#[local] Hint Resolve respects_clean_loop : resp.

Lemma respects_init_dataset : respects differ_in_lamb _init_dataset.
Proof. unfold _init_dataset. resp. Qed.

#[local] Hint Resolve respects_init_dataset respects_read_reference
  respects_scan_root : resp.

Lemma respects_len : respects differ_in_lamb __len__.
Proof. unfold __len__. resp. Qed.

#[local] Hint Resolve respects_len : resp.

Lemma respects_send : respects differ_in_lamb send.
Proof.
  unfold send. resp.
Qed.

Lemma respects_sends n s1 s2 :
  differ_in_lamb s1 s2 ->
  fst (sends n s1) = fst (sends n s2) /\ differ_in_lamb (snd (sends n s1)) (snd (sends n s2)).
Proof.
  revert s1 s2. induction n as [|n IH]; intros s1 s2 H; simpl; [split; [reflexivity|exact H]|].
  destruct (respects_send s1 s2 H) as [Hr Hs].
  destruct (send s1) as [r1 t1], (send s2) as [r2 t2]. simpl in *. subst r2.
  destruct (IH t1 t2 Hs) as [Hrs Hss].
  destruct (sends n t1) as [rs1 u1], (sends n t2) as [rs2 u2]. simpl in *.
  subst rs2. split; [reflexivity|exact Hss].
Qed.

Lemma respects_init_body :
  respects differ_in_lamb
    ('(dark, white) <- _read_reference ;;
     assign (set_refs dark white) ;;
     l <- _scan_root ;;
     assign (set_meas_list l) ;;
     n <- __len__ ;;
     assign (set_num_meas n)).
Proof. resp. Qed.

(** The reader itself does depend on the range it is given: the
    independence below comes from the callers, which never pass one. *)
Example read_spectrum_depends_on_range :
  fst (read_spectrum "data/A" (450, 690)%Z (lab_world 6 3 [])) = Ok [6; 6]%Q /\
  fst (read_spectrum "data/A" (451, 690)%Z (lab_world 6 3 [])) = Ok [6]%Q.
Proof. vm_compute. split; reflexivity. Qed.

(** C9. The configured [lamb_range] is not observed by cleaning or by
    iteration: two constructions that differ in the configured wavelength
    range only, run in the same world, fail alike or succeed alike, leave
    the same world (the same files read, at the reader's default range
    [(450, 690)]), yield objects that agree on every attribute but the
    wavelength configuration itself -- in particular on the filtered index
    -- and produce the same samples under any number of produce-next
    calls. *)
Theorem lamb_range_is_not_observed (root : string) (t : Z) (sh : bool)
    (cd : option string) (thr : Q) (r1 r2 : Z * Z) (c a : bool) (w : World) :
  let run1 := __init__ root t sh cd thr r1 c a w in
  let run2 := __init__ root t sh cd thr r2 c a w in
  default_lamb_range = (450, 690)%Z /\
  snd run1 = snd run2 /\
  match fst run1, fst run2 with
  | Ok o1, Ok o2 =>
      forget_lamb o1 = forget_lamb o2 /\
      meas_list o1 = meas_list o2 /\
      forall n, fst (sends n (mkState (snd run1) o1))
                = fst (sends n (mkState (snd run2) o2))
  | Raise e1, Raise e2 => e1 = e2
  | _, _ => False
  end.
Proof.
  intros run1 run2. split; [reflexivity|]. subst run1 run2. unfold __init__.
  set (o1 := mkSPECTRE t r1 _ _ _ _ _ _ _ _ _ _ _ _ _).
  set (o2 := mkSPECTRE t r2 _ _ _ _ _ _ _ _ _ _ _ _ _).
  assert (H0 : differ_in_lamb (mkState w o1) (mkState w o2))
    by (split; reflexivity).
  destruct (respects_init_body _ _ H0) as [Hr [Hw Ho]].
  match type of Hr with fst (?b _) = _ => set (body := b) in * end.
  destruct (body (mkState w o1)) as [x1 s1], (body (mkState w o2)) as [x2 s2].
  simpl in *. subst x2. split; [exact Hw|].
  destruct x1 as [[]|e]; [|reflexivity].
  split; [exact Ho|]. split; [exact (f_equal meas_list Ho)|].
  intros n. destruct s1 as [w1 p1], s2 as [w2 p2].
  apply respects_sends. split; [exact Hw|exact Ho].
Qed.

(** Whatever the object is configured with, the Reference Reader reads at
    the reader's defaults. *)
Lemma read_reference_at_defaults (s : State) :
  _read_reference s = read_reference_at 1400 (450, 690)%Z s.
Proof. reflexivity. Qed.

(** C3 fails on the code.  The object is configured with integration time
    1200 and wavelength range [(500, 600)]; the Reference Reader loads the
    frames recorded at 1400 and the spectra over [(450, 690)], not what a
    read at the configured values returns. *)
Theorem reference_reader_ignores_configuration :
  let o := blank "data" 1200 false None (15 # 100) (500, 600)%Z false false in
  let s := mkState (lab_world 6 3 []) o in
  int_time o = 1200%Z /\ lamb_range o = (500, 600)%Z /\
  fst (_read_reference s) = Ok (([1; 1], [1; 1]), ([11; 11], [11; 11]))%Q /\
  fst (read_reference_at (int_time o) (lamb_range o) s)
    = Ok (([2; 2], []), ([10; 10], []))%Q /\
  trace (world (snd (_read_reference s))) =
    [call_np_load "data/Dark/1400_frame.npy"; call_read_csv "data/Dark/spectrum.csv";
     call_np_load "data/White/1400_frame.npy"; call_read_csv "data/White/spectrum.csv"].
Proof. vm_compute. repeat split; reflexivity. Qed.

(** * Further properties

    What the code guarantees beyond the statements above: the bounds of what
    the readers return, the frame of the constructor and of the iteration,
    the cache record, and what the cleaning pass does and does not remove. *)

(** ** The two readers *)

Section Readers.
Local Open Scope Q_scope.

Lemma np_load_Ok p w a w' :
  np_load p w = (Ok a, w') -> fs w !! p = Some (Npy a) /\ w' = log (call_np_load p) w.
Proof.
  unfold np_load, bind, modify, gets, ret, raise. simpl.
  destruct (fs w !! p) as [[]|]; intros [= <- <-] || discriminate. split; reflexivity.
Qed.

Lemma np_clip_floor (m : Q) (raw : ndarray) :
  Forall2 (fun x r => (r < m -> x = m) /\ (m <= r -> x = r)) (np_clip raw (Some m) None) raw.
Proof.
  unfold np_clip. induction raw as [|r raw IH]; simpl; constructor; [|exact IH].
  unfold clip1, Qmax, GenericMinMax.gmax.
  destruct (Qcompare_spec r m) as [He|Hl|Hg]; split; intros H;
    first [reflexivity | exfalso; lra].
Qed.

(** X1. A frame that [read_frame] returns is the array stored in
    [<folder>/<int_time>_frame.npy] with every element below [EPSILON]
    replaced by [EPSILON] and every other element as stored; no upper bound
    is applied, and the file system is left as it was. *)
Theorem read_frame_floor (folder : string) (t : Z) (w w' : World) (frame : ndarray) :
  read_frame folder t w = (Ok frame, w') ->
  exists raw,
    fs w !! os_path_join folder (pretty t +:+ "_frame.npy") = Some (Npy raw) /\
    fs w' = fs w /\
    Forall2 (fun x r => (r < EPSILON -> x = EPSILON) /\ (EPSILON <= r -> x = r)) frame raw.
Proof.
  unfold read_frame, bind at 1.
  destruct (np_load _ w) as [[raw|e] w1] eqn:Hload; [|discriminate].
  intros [= <- <-]. apply np_load_Ok in Hload as [Hfs ->].
  exists raw. split; [exact Hfs|]. split; [reflexivity|].
  apply np_clip_floor.
Qed.

Lemma read_frame_floor_witness :
  exists frame w' raw,
    read_frame "data/A" 1400 (lab_world 6 3 []) = (Ok frame, w') /\
    fs (lab_world 6 3 []) !! os_path_join "data/A" (pretty 1400%Z +:+ "_frame.npy")
      = Some (Npy raw) /\
    fs w' = fs (lab_world 6 3 []) /\
    Forall2 (fun x r => (r < EPSILON -> x = EPSILON) /\ (EPSILON <= r -> x = r)) frame raw.
Proof.
  destruct (read_frame "data/A" 1400 (lab_world 6 3 [])) as [[frame|e] w'] eqn:Hrun;
    [|vm_compute in Hrun; discriminate].
  destruct (read_frame_floor "data/A" 1400 (lab_world 6 3 []) w' frame Hrun) as (raw & H).
  exists frame, w', raw. split; [reflexivity|exact H].
Defined.

Lemma pd_read_csv_Ok p w rows w' :
  pd_read_csv p w = (Ok rows, w') ->
  fs w !! p = Some (Csv rows) /\ w' = log (call_read_csv p) w.
Proof.
  unfold pd_read_csv, bind, modify, gets, ret, raise. simpl.
  destruct (fs w !! p) as [[]|]; intros [= <- <-] || discriminate. split; reflexivity.
Qed.

Lemma np_round_range (lo hi : Z) (x : Q) :
  inject_Z lo <= x -> x <= inject_Z hi -> (lo <= np_round x <= hi)%Z.
Proof.
  intros Hlo Hhi. unfold np_round.
  pose proof (Qfloor_le x) as Hfl. pose proof (Qlt_floor x) as Hfu.
  assert (H1 : (lo <= Qfloor x)%Z).
  { rewrite <- (Qfloor_Z lo). apply Qfloor_resp_le, Hlo. }
  assert (H2 : (Qfloor x <= hi)%Z).
  { rewrite <- (Qfloor_Z hi). apply Qfloor_resp_le, Hhi. }
  assert (H3 : (Qfloor x = hi)%Z -> x - inject_Z (Qfloor x) < 1 # 2).
  { intros ->. lra. }
  destruct (Qcompare_spec (x - inject_Z (Qfloor x)) (1 # 2)) as [He|Hl|Hg].
  - destruct (Z.even (Qfloor x)); [lia|].
    destruct (Z.eq_dec (Qfloor x) hi) as [E|E]; [specialize (H3 E); lra|lia].
  - lia.
  - destruct (Z.eq_dec (Qfloor x) hi) as [E|E]; [specialize (H3 E); lra|lia].
Qed.

Lemma group_insert_keys (R : Z -> Prop) k v gs :
  R k -> Forall R (map fst gs) -> Forall R (map fst (group_insert k v gs)).
Proof.
  intros Hk. induction gs as [|[k' vs] gs IH]; simpl; intros Hgs.
  - constructor; [exact Hk|constructor].
  - apply Forall_cons_1 in Hgs as [Hk' Hgs].
    destruct (k <? k')%Z; [|destruct (k =? k')%Z]; simpl.
    + constructor; [exact Hk|]. constructor; assumption.
    + constructor; assumption.
    + constructor; [exact Hk'|]. apply IH, Hgs.
Qed.

Lemma group_insert_ok P lo hi k v gs :
  (lo <= k <= hi)%Z -> P v -> groups_ok P lo hi gs ->
  groups_ok P lo hi (group_insert k v gs).
Proof.
  intros Hk Hv [Hs Hf]. induction gs as [|[k' vs] gs IH]; simpl.
  - split; simpl; [repeat constructor|]. constructor; [|constructor].
    simpl. split; [exact Hk|]. split; [discriminate|]. constructor; [exact Hv|constructor].
  - simpl in Hs. destruct Hs as [Hall Hs].
    apply Forall_cons_1 in Hf as [(Hk' & Hne & Hvs) Hf]. simpl in *.
    destruct (k <? k')%Z eqn:Hlt; [|destruct (k =? k')%Z eqn:Heq].
    + apply Z.ltb_lt in Hlt. split; simpl.
      * split; [|split; assumption].
        constructor; [exact Hlt|]. eapply Forall_impl; [exact Hall|].
        simpl. intros; lia.
      * constructor; [simpl; split; [exact Hk|]; split; [discriminate|];
                      constructor; [exact Hv|constructor]|].
        constructor; [simpl; auto|exact Hf].
    + split; simpl; [split; assumption|].
      constructor; [|exact Hf]. simpl. split; [exact Hk'|]. split.
      * destruct vs; discriminate.
      * apply Forall_app. split; [exact Hvs|]. constructor; [exact Hv|constructor].
    + apply Z.ltb_ge in Hlt. apply Z.eqb_neq in Heq.
      destruct (IH Hs Hf) as [IHs IHf]. split; simpl.
      * split; [|exact IHs]. apply group_insert_keys; [lia|exact Hall].
      * constructor; [simpl; auto|exact IHf].
Qed.

Lemma groupby_ok P lo hi (df : list (Z * Q)) :
  Forall (fun row => (lo <= fst row <= hi)%Z /\ P (snd row)) df ->
  groups_ok P lo hi (fold_left (fun gs '(k, v) => group_insert k v gs) df []).
Proof.
  assert (Hgen : forall gs, groups_ok P lo hi gs ->
    Forall (fun row => (lo <= fst row <= hi)%Z /\ P (snd row)) df ->
    groups_ok P lo hi (fold_left (fun gs '(k, v) => group_insert k v gs) df gs)).
  { induction df as [|[k v] df IH]; intros gs Hgs Hdf; simpl; [exact Hgs|].
    apply Forall_cons_1 in Hdf as [[Hk Hv] Hdf]. simpl in *.
    apply IH; [apply group_insert_ok; assumption|exact Hdf]. }
  apply Hgen. split; simpl; constructor.
Qed.

Lemma Qsum_ge (m : Q) (vs : list Q) :
  Forall (fun v => m <= v) vs -> m * inject_Z (Z.of_nat (length vs)) <= Qsum vs.
Proof.
  induction 1 as [|v vs Hv _ IH]; simpl.
  - unfold Qsum. simpl. change (inject_Z (Z.of_nat 0)) with 0. lra.
  - unfold Qsum in *. simpl fold_right. simpl length.
    rewrite Nat2Z.inj_succ, <- Z.add_1_r, inject_Z_plus.
    change (inject_Z 1) with 1. lra.
Qed.

Lemma group_mean_ge (m : Q) (vs : list Q) :
  vs <> [] -> Forall (fun v => m <= v) vs ->
  m <= Qsum vs / inject_Z (Z.of_nat (length vs)).
Proof.
  intros Hne Hvs. apply Qle_shift_div_l.
  - destruct vs; [congruence|]. simpl length.
    change 0 with (inject_Z 0). rewrite <- Zlt_Qlt. lia.
  - apply Qsum_ge, Hvs.
Qed.

Lemma ascending_range_length (l : list Z) : forall lo hi,
  ascending l -> Forall (fun k => (lo <= k <= hi)%Z) l ->
  (Z.of_nat (length l) <= Z.max 0 (hi - lo + 1))%Z.
Proof.
  induction l as [|k l IH]; intros lo hi Hs Hr; simpl length; [lia|].
  destruct Hs as [Hall Hs]. apply Forall_cons_1 in Hr as [Hk Hr].
  assert (Hr' : Forall (fun j => (k + 1 <= j <= hi)%Z) l).
  { clear IH Hs. induction l as [|j l IHl]; constructor.
    - apply Forall_cons_1 in Hall as [? _]. apply Forall_cons_1 in Hr as [? _]. lia.
    - apply Forall_cons_1 in Hall as [_ ?]. apply Forall_cons_1 in Hr as [_ ?]. auto. }
  specialize (IH (k + 1)%Z hi Hs Hr'). lia.
Qed.

(** What [read_spectrum] returns, before the labels are dropped. *)
Lemma read_spectrum_groups folder r w sp w' :
  read_spectrum folder r w = (Ok sp, w') ->
  fs w' = fs w /\
  exists gs, groups_ok (fun v => EPSILON <= v) (fst r) (snd r - 1) gs /\
    sp = map (fun g => Qsum (snd g) / inject_Z (Z.of_nat (length (snd g)))) gs.
Proof.
  unfold read_spectrum, bind at 1.
  destruct (pd_read_csv _ w) as [[rows|e] w1] eqn:Hcsv; [|discriminate].
  apply pd_read_csv_Ok in Hcsv as [_ ->].
  unfold bind, lift, ret. unfold df_loc.
  destruct (is_monotonic_increasing _); [|discriminate].
  intros [= <- <-]. split; [reflexivity|].
  eexists. split; cycle 1.
  - unfold to_numpy_squeeze, df_groupby_mean. rewrite map_map.
    apply map_ext. intros [k vs]. reflexivity.
  - apply groupby_ok. unfold df_round_index, df_clip_lower.
    induction rows as [|[x v] rows IH]; simpl; [constructor|].
    destruct (Qle_bool (inject_Z r.1) x && Qle_bool x (inject_Z (r.2 - 1))) eqn:Hin;
      [|exact IH].
    simpl. constructor; [|exact IH]. simpl.
    apply andb_true_iff in Hin as [H1 H2]. apply Qle_bool_iff in H1, H2.
    split; [apply np_round_range; assumption|]. apply Q.le_max_r.
Qed.

Lemma index_df_clip_lower m (rows : DataFrame) :
  map fst (df_clip_lower m rows) = map fst rows.
Proof.
  unfold df_clip_lower. rewrite map_map. apply map_ext. intros [x v]. reflexivity.
Qed.

(** On a file whose wavelengths are sorted upwards the read succeeds. *)
Lemma read_spectrum_sorted folder r w rows :
  fs w !! os_path_join folder "spectrum.csv" = Some (Csv rows) ->
  is_monotonic_increasing (map fst rows) = true ->
  exists sp w', read_spectrum folder r w = (Ok sp, w').
Proof.
  intros Hfile Hsorted.
  unfold read_spectrum, pd_read_csv, bind, modify, gets, ret, lift, df_loc. simpl.
  rewrite Hfile, index_df_clip_lower, Hsorted. eauto.
Qed.

(** X2. On a spectrum file whose wavelengths are sorted upwards
    [read_spectrum] succeeds, every value of the spectrum is strictly
    positive, thanks to the lower clip, and the file system is left as it
    was.  (That a value is at least [EPSILON] is not stated: rounded in
    binary64, the mean of rows equal to [EPSILON] can fall just below it.) *)
Theorem read_spectrum_positive (folder : string) (r : Z * Z) (w : World) (rows : DataFrame) :
  fs w !! os_path_join folder "spectrum.csv" = Some (Csv rows) ->
  is_monotonic_increasing (map fst rows) = true ->
  exists sp w',
    read_spectrum folder r w = (Ok sp, w') /\
    Forall (fun x => 0 < x) sp /\
    fs w' = fs w.
Proof.
  intros Hfile Hsorted.
  destruct (read_spectrum_sorted folder r w rows Hfile Hsorted) as (sp & w' & Hrun).
  exists sp, w'. split; [exact Hrun|].
  apply read_spectrum_groups in Hrun as (Hfs & gs & [_ Hgs] & ->).
  split; [|exact Hfs].
  induction Hgs as [|g gs (_ & Hne & Hvs) _ IH]; simpl; constructor; [|exact IH].
  apply Qlt_le_trans with EPSILON; [reflexivity|].
  apply group_mean_ge; assumption.
Qed.

Lemma read_spectrum_positive_witness :
  exists sp w',
    read_spectrum "data/A" (450, 690)%Z (lab_world 0 3 []) = (Ok sp, w') /\
    Forall (fun x => 0 < x) sp /\
    fs w' = fs (lab_world 0 3 []).
Proof.
  apply (read_spectrum_positive "data/A" (450, 690)%Z (lab_world 0 3 []) [(450, 0); (451, 0)]).
  - vm_compute. reflexivity.
  - reflexivity.
Defined.

(** X3. On a spectrum file whose wavelengths are sorted upwards
    [read_spectrum] succeeds and returns at most one value per integer
    wavelength of the range: the spectrum is never longer than
    [np.arange(lo, hi)], and an empty range gives an empty spectrum.  (On an
    unsorted file pandas slices by position and can return more.) *)
Theorem read_spectrum_length (folder : string) (r : Z * Z) (w : World) (rows : DataFrame) :
  fs w !! os_path_join folder "spectrum.csv" = Some (Csv rows) ->
  is_monotonic_increasing (map fst rows) = true ->
  exists sp w',
    read_spectrum folder r w = (Ok sp, w') /\
    (length sp <= length (np_arange2 (fst r) (snd r)))%nat /\
    ((snd r <= fst r)%Z -> sp = []).
Proof.
  intros Hfile Hsorted.
  destruct (read_spectrum_sorted folder r w rows Hfile Hsorted) as (sp & w' & Hrun).
  exists sp, w'. split; [exact Hrun|].
  apply read_spectrum_groups in Hrun as (_ & gs & [Hasc Hgs] & ->).
  assert (Hlen : (Z.of_nat (length gs) <= Z.max 0 (snd r - fst r))%Z).
  { rewrite <- (length_map fst gs).
    replace (snd r - fst r)%Z with (snd r - 1 - fst r + 1)%Z by lia.
    apply ascending_range_length; [exact Hasc|].
    clear Hasc. induction Hgs as [|g gs (Hk & _) _ IH]; simpl; constructor; assumption. }
  rewrite length_map. unfold np_arange2. rewrite length_map, length_seq.
  split; [lia|]. intros Hle. destruct gs; [reflexivity|]. simpl in Hlen. lia.
Qed.

Lemma read_spectrum_length_witness :
  exists sp w',
    read_spectrum "data/A" (450, 690)%Z (lab_world 0 3 []) = (Ok sp, w') /\
    (length sp <= length (np_arange2 450 690))%nat /\
    ((690 <= 450)%Z -> sp = []).
Proof.
  apply (read_spectrum_length "data/A" (450, 690)%Z (lab_world 0 3 []) [(450, 0); (451, 0)]).
  - vm_compute. reflexivity.
  - reflexivity.
Defined.
End Readers.

(** ** Order properties of the normalizer *)

Section NormalizerOrder.
Local Open Scope Q_scope.

Lemma Qdiv_le_compat (a b c : Q) : 0 < c -> a <= b -> a / c <= b / c.
Proof.
  intros Hc Hab. unfold Qdiv. apply Qmult_le_compat_r; [exact Hab|].
  apply Qlt_le_weak, Qinv_lt_0_compat, Hc.
Qed.

Lemma clip1_monotone lo hi x y :
  x <= y -> clip1 (Some lo) (Some hi) x <= clip1 (Some lo) (Some hi) y.
Proof.
  intros Hxy. unfold clip1.
  apply Q.min_le_compat_l, Q.max_le_compat_r, Hxy.
Qed.

(** X4. [normalize_array] is monotone in the raw signal: with references
    [dark < white] of the shape of the raw array, a raw array that is
    nowhere smaller normalizes to an array that is nowhere smaller. *)
Theorem normalize_array_monotone (raw raw' dark white out out' : ndarray) :
  Forall2 Qlt dark white ->
  Forall2 Qle raw raw' ->
  length raw = length dark ->
  normalize_array raw dark white = Ok out ->
  normalize_array raw' dark white = Ok out' ->
  Forall2 Qle out out'.
Proof.
  intros Hdw Hrr Hlen Hout Hout'.
  pose proof (Forall2_length _ _ _ Hdw) as Hw.
  pose proof (Forall2_length _ _ _ Hrr) as Hr.
  rewrite normalize_array_same_shape in Hout by congruence.
  rewrite normalize_array_same_shape in Hout' by congruence.
  injection Hout as <-. injection Hout' as <-. clear Hw Hr.
  revert raw raw' Hrr Hlen.
  induction Hdw as [|d w dark white Hlt _ IH]; intros raw raw' Hrr Hlen;
    destruct Hrr as [|r r' raw raw' Hle Hrr]; simpl in *; try discriminate;
    constructor.
  - apply clip1_monotone, Qdiv_le_compat; lra.
  - apply IH; [exact Hrr|congruence].
Qed.

Lemma normalize_array_monotone_witness :
  Forall2 Qle [1 # 10; 1] [5 # 10; 1].
Proof.
  apply (normalize_array_monotone [2; 70] [6; 71] [1; 1] [11; 11] [1 # 10; 1] [5 # 10; 1]).
  - repeat constructor.
  - repeat constructor; discriminate.
  - reflexivity.
  - reflexivity.
  - reflexivity.
Defined.

Lemma clip1_low x : x <= EPSILON -> clip1 (Some EPSILON) (Some 1) x == EPSILON.
Proof.
  intros Hx. unfold clip1.
  destruct (Q.max_spec x EPSILON) as [[? E1]|[? E1]];
    destruct (Q.min_spec 1 (Qmax x EPSILON)) as [[? E2]|[? E2]];
    unfold EPSILON in *; lra.
Qed.

Lemma clip1_high x : 1 <= x -> clip1 (Some EPSILON) (Some 1) x == 1.
Proof.
  intros Hx. unfold clip1.
  destruct (Q.max_spec x EPSILON) as [[? E1]|[? E1]];
    destruct (Q.min_spec 1 (Qmax x EPSILON)) as [[? E2]|[? E2]];
    unfold EPSILON in *; lra.
Qed.

(** X5. [normalize_array] saturates: with references [dark < white] of the
    shape of the raw array, an element at or below its dark reference
    normalizes to [EPSILON], and an element at or above its white reference
    normalizes to 1. *)
Theorem normalize_array_saturates (raw dark white out : ndarray) :
  Forall2 Qlt dark white ->
  length raw = length dark ->
  normalize_array raw dark white = Ok out ->
  forall k r d w x,
    raw !! k = Some r -> dark !! k = Some d -> white !! k = Some w ->
    out !! k = Some x ->
    (r <= d -> x == EPSILON) /\ (w <= r -> x == 1).
Proof.
  intros Hdw Hlen Hout.
  pose proof (Forall2_length _ _ _ Hdw) as Hw.
  rewrite normalize_array_same_shape in Hout by congruence.
  injection Hout as <-. clear Hw. revert raw Hlen.
  induction Hdw as [|d0 w0 dark white Hlt _ IH]; intros [|r0 raw] Hlen k r d w x;
    simpl in *; try discriminate.
  destruct k as [|k]; simpl.
  - intros [= <-] [= <-] [= <-] [= <-]. split; intros H.
    + apply clip1_low. apply Qle_trans with 0; [|unfold EPSILON; lra].
      apply Qle_shift_div_r; lra.
    + apply clip1_high. apply Qle_shift_div_l; lra.
  - apply IH. congruence.
Qed.

Lemma normalize_array_saturates_witness :
  ((0 <= 1 -> EPSILON == EPSILON) /\ (11 <= 0 -> EPSILON == 1)).
Proof.
  apply (normalize_array_saturates [0; 70] [1; 1] [11; 11] [EPSILON; 1]
           ltac:(repeat constructor) eq_refl eq_refl 0%nat 0 1 11 EPSILON);
    reflexivity.
Defined.
End NormalizerOrder.

(** ** The range of a sample *)

Section SampleRange.
Local Open Scope Q_scope.

Lemma normalize_array_range (a d w out : ndarray) :
  normalize_array a d w = Ok out -> Forall (fun y => EPSILON <= y <= 1) out.
Proof.
  unfold normalize_array, rbind.
  destruct (np_sub a d); [|discriminate]. destruct (np_sub w d); [|discriminate].
  destruct (np_div _ _) as [quo|]; [|discriminate]. intros [= <-].
  unfold np_clip. induction quo as [|q quo IH]; simpl; constructor; [|exact IH].
  pose proof (clip1_interval EPSILON 1 q EPSILON_le_1) as ->.
  apply clip_to_interval_bounds, EPSILON_le_1.
Qed.

Lemma zip_with_Forall (P R : Q -> Prop) (f : Q -> Q -> Q) (a b : ndarray) :
  (forall x y, P x -> P y -> R (f x y)) ->
  Forall P a -> Forall P b -> Forall R (zip_with f a b).
Proof.
  intros Hf Ha. revert b.
  induction Ha as [|x a Hx _ IH]; intros [|y b] Hb; simpl; constructor.
  - apply Forall_cons_1 in Hb as [Hy _]. auto.
  - apply Forall_cons_1 in Hb as [_ Hb]. auto.
Qed.

Lemma map_Forall (P R : Q -> Prop) (g : Q -> Q) (a : ndarray) :
  (forall x, P x -> R (g x)) -> Forall P a -> Forall R (map g a).
Proof. intros Hg Ha. induction Ha; simpl; constructor; auto. Qed.

Lemma broadcast_Forall (P R : Q -> Prop) (f : Q -> Q -> Q) (a b out : ndarray) :
  (forall x y, P x -> P y -> R (f x y)) ->
  Forall P a -> Forall P b -> broadcast f a b = Ok out -> Forall R out.
Proof.
  intros Hf Ha Hb. unfold broadcast.
  destruct (Nat.eqb (length a) (length b));
    [intros [= <-]; apply (zip_with_Forall P); assumption|].
  repeat case_match; try discriminate; intros [= <-]; subst;
    repeat match goal with
           | H : Forall _ (_ :: _) |- _ => apply Forall_cons_1 in H as [? H]
           end;
    repeat (constructor; [apply Hf; assumption|]);
    first [ constructor | apply (map_Forall P); [|assumption]; intros; apply Hf; assumption ].
Qed.

Lemma product_range x y :
  EPSILON <= x <= 1 -> EPSILON <= y <= 1 ->
  EPSILON * EPSILON <= x * y <= 1 /\ x * y <= x /\ x * y <= y.
Proof.
  intros [Hx1 Hx2] [Hy1 Hy2]. pose proof EPSILON_le_1. unfold EPSILON in *. nra.
Qed.

Lemma normalize_measurement_range frame spectrum s fn sn s' :
  _normalize_measurement frame spectrum s = (Ok (fn, sn), s') ->
  Forall (fun y => EPSILON <= y <= 1) fn /\ Forall (fun y => EPSILON <= y <= 1) sn.
Proof.
  unfold _normalize_measurement. intros H.
  apply bind_Ok in H as (d1 & s1 & _ & H). apply bind_Ok in H as (w1 & s2 & _ & H).
  apply bind_Ok in H as (fn' & s3 & Hf & H).
  apply bind_Ok in H as (d2 & s4 & _ & H). apply bind_Ok in H as (w2 & s5 & _ & H).
  apply bind_Ok in H as (sn' & s6 & Hs & H).
  injection H as <- <- <-. injection Hf as Hf _. injection Hs as Hs _.
  split; eapply normalize_array_range; eassumption.
Qed.

Lemma read_meas_file_singular_range path s f sp s' :
  _read_meas_file_singular path s = (Ok (f, sp), s') ->
  Forall (fun y => EPSILON <= y <= 1) f /\ Forall (fun y => EPSILON <= y <= 1) sp.
Proof.
  unfold _read_meas_file_singular. intros H.
  apply bind_Ok in H as (t & s1 & _ & H).
  apply bind_Ok in H as ([fr spr] & s2 & _ & H).
  apply bind_Ok in H as ([fn sn] & s3 & Hn & H).
  injection H as <- <- <-. eapply normalize_measurement_range, Hn.
Qed.

Lemma read_meas_file_range k s f sp s' :
  _read_meas_file k s = (Ok (f, sp), s') ->
  (Forall (fun y => EPSILON * EPSILON <= y <= 1) f /\
   Forall (fun y => EPSILON * EPSILON <= y <= 1) sp) /\
  (forall p, meas_list (self s) !! k = Some (p, None) ->
     Forall (fun y => EPSILON <= y <= 1) f /\ Forall (fun y => EPSILON <= y <= 1) sp).
Proof.
  assert (Hweak : forall l, Forall (fun y => EPSILON <= y <= 1) l ->
                            Forall (fun y => EPSILON * EPSILON <= y <= 1) l).
  { intros l Hl. eapply Forall_impl; [exact Hl|]. intros y [H1 H2]. split; [|exact H2].
    pose proof EPSILON_le_1. unfold EPSILON in *. nra. }
  unfold _read_meas_file. intros H.
  apply bind_Ok in H as (l & s1 & Hl & H). injection Hl as <- <-.
  destruct (meas_list (self s) !! k) as [[a [b|]]|] eqn:Hk; [| |discriminate].
  - split; [|intros p [=]].
    apply bind_Ok in H as ([fa spa] & s2 & Ha & H).
    apply bind_Ok in H as ([fb spb] & s3 & Hb & H).
    apply bind_Ok in H as (fr & s4 & Hfr & H).
    apply bind_Ok in H as (spr & s5 & Hspr & H).
    injection H as <- <- <-. injection Hfr as Hfr _. injection Hspr as Hspr _.
    apply read_meas_file_singular_range in Ha as [Hfa Hspa].
    apply read_meas_file_singular_range in Hb as [Hfb Hspb].
    split; (eapply (broadcast_Forall (fun y => EPSILON <= y <= 1));
            [|..|eassumption]; [|assumption|assumption];
            intros x y Hx Hy; apply product_range; assumption).
  - apply read_meas_file_singular_range in H as [Hf Hsp].
    split; [split; apply Hweak; assumption|]. intros p _. split; assumption.
Qed.

(** X6. Every value of a sample that [send] produces lies between
    [EPSILON * EPSILON] and 1, and between [EPSILON] and 1 when the
    descriptor is not augmented: an augmented sample is the product of two
    normalized samples, so its floor is the square of the normalizer's.
    Stated for references with [dark < white], where the model's quotient
    is numpy's. *)
Theorem send_values_in_unit_interval (s s' : State) (frame sp : ndarray) :
  finalized (self s) ->
  Forall2 Qlt (fst (dark_meas (self s))) (fst (white_meas (self s))) ->
  Forall2 Qlt (snd (dark_meas (self s))) (snd (white_meas (self s))) ->
  send s = (Ok (frame, sp), s') ->
  (Forall (fun y => EPSILON * EPSILON <= y <= 1) frame /\
   Forall (fun y => EPSILON * EPSILON <= y <= 1) sp) /\
  (forall p, meas_list (self s) !! i (self s) = Some (p, None) ->
     Forall (fun y => EPSILON <= y <= 1) frame /\ Forall (fun y => EPSILON <= y <= 1) sp).
Proof.
  intros Hf _ _ Hsend.
  destruct (Nat.lt_ge_cases (i (self s)) (length (meas_list (self s)))) as [Hlt|Hge].
  - destruct (send_produces s Hf Hlt) as (Heq & _ & _). rewrite Heq in Hsend.
    destruct (_read_meas_file (i (self s)) s) as [r s1] eqn:Hread. simpl in Hsend.
    injection Hsend as -> _. eapply read_meas_file_range, Hread.
  - rewrite (send_exhausted s Hf Hge) in Hsend. discriminate.
Qed.

Lemma send_values_in_unit_interval_witness :
  let s := lab_state 6 3 1400 false [] in
  exists frame sp s',
    send s = (Ok (frame, sp), s') /\
    (Forall (fun y => EPSILON * EPSILON <= y <= 1) frame /\
     Forall (fun y => EPSILON * EPSILON <= y <= 1) sp) /\
    (forall p, meas_list (self s) !! i (self s) = Some (p, None) ->
       Forall (fun y => EPSILON <= y <= 1) frame /\ Forall (fun y => EPSILON <= y <= 1) sp).
Proof.
  intros s.
  destruct (send s) as [[[frame sp]|e] s'] eqn:Hsend; [|vm_compute in Hsend; discriminate].
  exists frame, sp, s'. split; [reflexivity|].
  apply (send_values_in_unit_interval s s' frame sp).
  - vm_compute. reflexivity.
  - vm_compute. repeat constructor.
  - vm_compute. repeat constructor.
  - exact Hsend.
Defined.
End SampleRange.

(** ** The cursor *)

Lemma set_i_id o : set_i (i o) o = o.
Proof. destruct o; reflexivity. Qed.

(** Any number of produce-next calls leaves the disk alone and changes
    nothing of the object but the cursor, which counts the samples
    produced. *)
Lemma sends_frame n : forall s,
  finalized (self s) ->
  same_disk (world s) (world (snd (sends n s))) /\
  self (snd (sends n s)) = set_i (i (self s) + successes (fst (sends n s))) (self s).
Proof.
  induction n as [|n IH]; intros s Hf; simpl.
  - split; [repeat split|]. unfold successes. simpl.
    rewrite Nat.add_0_r, set_i_id. reflexivity.
  - destruct (Nat.lt_ge_cases (i (self s)) (length (meas_list (self s)))) as [Hlt|Hge].
    + destruct (send_produces s Hf Hlt) as (Hsend & Hd & _). rewrite Hsend.
      set (r0 := fst (_read_meas_file (i (self s)) s)) in *.
      set (s1 := mkState _ _).
      assert (Hf1 : finalized (self s1)) by (subst s1; simpl; destruct (is_ok r0); exact Hf).
      destruct (IH s1 Hf1) as [Hd1 Hs1].
      destruct (sends n s1) as [rs s2]. simpl in *. split.
      * destruct Hd as (? & ? & ?), Hd1 as (? & ? & ?). repeat split; congruence.
      * rewrite Hs1. unfold successes. simpl. destruct (is_ok r0); simpl.
        -- destruct (self s). simpl. unfold set_i. simpl. f_equal. lia.
        -- reflexivity.
    + rewrite (send_exhausted s Hf Hge).
      destruct (IH s Hf) as [Hd1 Hs1].
      destruct (sends n s) as [rs s2]. simpl in *. split; [exact Hd1|].
      rewrite Hs1. reflexivity.
Qed.

(** X7. Iterating a finalized dataset never changes the file system and
    changes nothing of the object but the cursor: after any number of
    [send] calls the cursor has advanced by the number of samples produced,
    failed reads and exhausted calls leaving it in place, and it never
    passes the end of the index. *)
Theorem iteration_only_moves_cursor (s : State) (n : nat) :
  finalized (self s) ->
  let rs := fst (sends n s) in
  let s' := snd (sends n s) in
  fs (world s') = fs (world s) /\
  self s' = set_i (i (self s) + successes rs) (self s) /\
  i (self s) <= i (self s') <= length (meas_list (self s)) `max` i (self s).
Proof.
  intros Hf rs s'. destruct (sends_frame n s Hf) as [[Hfs _] Hs]. fold s' rs in Hfs, Hs.
  split; [exact Hfs|]. split; [exact Hs|]. rewrite Hs. simpl.
  destruct (sends_from n s Hf) as (Hle & _). fold rs in Hle. lia.
Qed.

Lemma iteration_only_moves_cursor_witness :
  let s := lab_state 6 3 1400 false [] in
  let rs := fst (sends 5 s) in
  let s' := snd (sends 5 s) in
  fs (world s') = fs (world s) /\
  self s' = set_i (i (self s) + successes rs) (self s) /\
  i (self s) <= i (self s') <= length (meas_list (self s)) `max` i (self s).
Proof.
  apply (iteration_only_moves_cursor (lab_state 6 3 1400 false []) 5).
  vm_compute. reflexivity.
Defined.

(** X8. [__len__] of a finalized dataset is the length of the filtered
    index and stays so however many samples have been requested: it is the
    size of the dataset, not the number of samples left, and asking for it
    changes nothing. *)
Theorem len_is_fixed (s : State) (n : nat) :
  finalized (self s) ->
  __len__ (snd (sends n s)) = (Ok (length (meas_list (self s))), snd (sends n s)).
Proof.
  intros Hf. destruct (sends_frame n s Hf) as [_ Hs].
  assert (Hf' : finalized (self (snd (sends n s)))) by (rewrite Hs; exact Hf).
  rewrite (len_finalized _ Hf'), Hs. reflexivity.
Qed.

Lemma len_is_fixed_witness :
  __len__ (snd (sends 3 (lab_state 6 3 1400 false [])))
  = (Ok 2, snd (sends 3 (lab_state 6 3 1400 false []))).
Proof.
  apply (len_is_fixed (lab_state 6 3 1400 false []) 3).
  vm_compute. reflexivity.
Defined.

(** ** The constructor, step by step *)

Lemma touches_refl dir c w : touches dir c w w.
Proof. intros p _ _. reflexivity. Qed.

Lemma touches_trans dir c w1 w2 w3 :
  touches dir c w1 w2 -> touches dir c w2 w3 -> touches dir c w1 w3.
Proof.
  intros H12 H23 p Hp Hc. rewrite <- (H12 p Hp Hc). apply H23; [|exact Hc].
  destruct Hp as [Hp|Hp]; [left; exact Hp|right]. rewrite (H12 p); auto.
Qed.

Lemma touches_same_fs dir c w w' : fs w' = fs w -> touches dir c w w'.
Proof. intros H p _ _. rewrite H. reflexivity. Qed.

Lemma mkdir_touches dir c w :
  touches dir c w (snd (try_except_pass (os_mkdir dir) FileExistsError w)).
Proof.
  unfold try_except_pass, os_mkdir, bind, modify, gets, raise. simpl.
  destruct (fs w !! dir) as [n|] eqn:Hd; simpl; [apply touches_same_fs; reflexivity|].
  destruct (denied w dir); simpl; [apply touches_same_fs; reflexivity|].
  intros p [Hp|Hp] _; simpl.
  - apply lookup_insert_ne. congruence.
  - destruct (decide (p = dir)) as [->|Hne].
    + rewrite Hd in Hp. destruct Hp as [? ?]. discriminate.
    + apply lookup_insert_ne. congruence.
Qed.

Lemma pickle_dump_touches dir l w :
  touches dir true w (snd (pickle_dump l (cache_file dir) w)).
Proof.
  assert (Hins : forall w0 : World, fs w0 = fs w ->
            touches dir true w (set_fs (<[cache_file dir := Pickle l]> (fs w0)) w0)).
  { intros w0 H0 p _ [Hp|Hp]; [|discriminate]. simpl. rewrite H0.
    apply lookup_insert_ne. congruence. }
  unfold pickle_dump, bind, modify, gets, raise. simpl.
  destruct (fs w !! cache_file dir) as [[]|]; simpl;
    try (apply touches_same_fs; reflexivity);
    (destruct (denied w (cache_file dir)); simpl; [apply touches_same_fs; reflexivity|]);
    apply (Hins (log _ w)); reflexivity.
Qed.

Lemma init_load_fs dir s : fs (world (snd (init_load dir s))) = fs (world s).
Proof.
  destruct s as [w o]. unfold init_load, bind, call, print, assign, modify. simpl.
  match goal with |- context [pickle_load ?p ?w0] =>
    destruct (ensures_pickle_load p w0) as [(Hfs & _) _];
    destruct (pickle_load p w0) as [[l|e] w1] end; simpl in *; exact Hfs.
Qed.

Lemma init_tail_fs s : fs (world (snd (init_tail s))) = fs (world s).
Proof.
  destruct (init_tail_run s) as (ids & r & -> & _). simpl.
  destruct (shuffle (self s)); reflexivity.
Qed.

Lemma init_clean_touches dir s :
  touches dir (cache (self s)) (world s) (world (snd (init_clean dir s))).
Proof.
  unfold init_clean.
  unfold bind at 1, call at 1, print at 1, modify at 1. cbn [fst snd world self].
  set (s1 := mkState _ _).
  assert (H1 : touches dir (cache (self s)) (world s) (world s1))
    by (apply touches_same_fs; reflexivity).
  unfold bind at 1.
  pose proof (mkdir_touches dir (cache (self s)) (world s1)) as Hmk.
  unfold call at 1.
  destruct (try_except_pass (os_mkdir dir) FileExistsError (world s1)) as [rm w2].
  cbn [snd] in Hmk.
  assert (H2 : touches dir (cache (self s)) (world s) w2)
    by exact (touches_trans _ _ _ _ _ H1 Hmk).
  clear H1 Hmk. destruct rm as [[]|e]; cbn [fst snd world self]; [|exact H2].
  change (self s1) with (self s). set (s2 := mkState w2 (self s)).
  unfold bind at 1, attr at 1, gets at 1. unfold bind at 1.
  destruct (ensures_clean_loop (length (meas_list (self s2))) 0 s2)
    as [((Hfs & _ & _) & Ho & _) _].
  destruct (clean_loop _ 0 s2) as [rl s3]. cbn [fst snd] in *.
  assert (H3 : touches dir (cache (self s)) (world s) (world s3)).
  { eapply touches_trans; [exact H2|]. apply touches_same_fs. exact Hfs. }
  destruct rl as [[]|e]; cbn [fst snd world self]; [|exact H3].
  assert (Hc : cache (self s3) = cache (self s)).
  { change (cache (set_meas_list [] (self s3)) = cache (self s)).
    rewrite Ho. reflexivity. }
  unfold bind at 1, attr at 1, gets at 1. rewrite Hc.
  destruct (cache (self s)) eqn:Hcs; cbn [fst snd world self]; [|exact H3].
  unfold bind at 1, call at 1, print at 1, modify at 1. cbn [fst snd world self].
  unfold bind at 1, attr at 1, gets at 1. cbn [fst snd world self].
  unfold call.
  match goal with |- context [pickle_dump ?l ?p ?w] =>
    pose proof (pickle_dump_touches dir l w) as Hdump;
    destruct (pickle_dump l p w) as [rd w4] end.
  cbn [snd world] in *.
  eapply touches_trans; [exact H3|]. eapply touches_trans; [|exact Hdump].
  apply touches_same_fs. reflexivity.
Qed.

Lemma init_dataset_touches s :
  touches (cache_location (self s)) (cache (self s)) (world s)
          (world (snd (_init_dataset s))).
Proof.
  rewrite init_dataset_blocks. cbv zeta.
  set (dir := cache_location (self s)). set (s1 := mkState _ _).
  assert (Hbranch : forall b : bool,
    touches dir (cache (self s)) (world s)
      (world (snd ((if b then init_load dir else init_clean dir) s1)))).
  { intros [|].
    - apply touches_same_fs. rewrite init_load_fs. reflexivity.
    - eapply touches_trans; [|apply (init_clean_touches dir s1)].
      apply touches_same_fs. reflexivity. }
  set (b := bool_decide (is_Some (fs (world s) !! cache_file dir)) && cache (self s)).
  specialize (Hbranch b). unfold bind.
  destruct ((if b then init_load dir else init_clean dir) s1) as [[[]|e] s2];
    cbn [snd] in *; [|exact Hbranch].
  eapply touches_trans; [exact Hbranch|]. apply touches_same_fs, init_tail_fs.
Qed.

(** The statements of [__init__], one after the other. *)
Lemma init_steps root t sh cd thr r c a w :
  __init__ root t sh cd thr r c a w =
    let o0 := blank root t sh cd thr r c a in
    match _read_reference (mkState w o0) with
    | (Raise e, s1) => (Raise e, world s1)
    | (Ok (dark, white), s1) =>
        let o1 := set_refs dark white o0 in
        match _scan_root (mkState (world s1) o1) with
        | (Raise e, s2) => (Raise e, world s2)
        | (Ok l, s2) =>
            match _init_dataset (mkState (world s2) (set_meas_list l o1)) with
            | (Raise e, s4) => (Raise e, world s4)
            | (Ok _, s4) =>
                (Ok (set_num_meas (length (default [] (_ids (self s4)))) (self s4)),
                 world s4)
            end
        end
    end.
Proof.
  cbv zeta. unfold __init__. fold (blank root t sh cd thr r c a).
  set (o0 := blank root t sh cd thr r c a).
  destruct (ensures_read_reference (mkState w o0)) as [[_ Hs1] _].
  unfold bind at 1.
  destruct (_read_reference (mkState w o0)) as [[[dark white]|e] s1]; [|reflexivity].
  cbn [fst snd self] in Hs1.
  unfold bind at 1, assign at 1, modify at 1. cbn [fst snd world self].
  rewrite Hs1. set (o1 := set_refs dark white o0).
  destruct (ensures_scan_root (mkState (world s1) o1)) as [[_ Hs2] _].
  unfold bind at 1.
  destruct (_scan_root (mkState (world s1) o1)) as [[l|e] s2]; [|reflexivity].
  cbn [fst snd self] in Hs2.
  unfold bind at 1, assign at 1, modify at 1. cbn [fst snd world self].
  rewrite Hs2. set (s3 := mkState _ _).
  unfold bind at 1, __len__. unfold bind at 1, attr at 1, gets at 1.
  cbn [fst snd world self]. change (_ids (self s3)) with (@None (list nat)). cbv iota.
  unfold bind at 1.
  destruct (_init_dataset s3) as [[[]|e] s4]; [|reflexivity].
  unfold bind, attr, gets, ret, assign, modify. reflexivity.
Qed.

Lemma ensures_mono {S A} (I J : S -> S -> Prop) (E E' : exn -> Prop) (c : M S A) :
  (forall s s', I s s' -> J s s') -> (forall e, E e -> E' e) ->
  ensures I E c -> ensures J E' c.
Proof.
  intros HI HE Hc s. destruct (Hc s) as [H1 H2]. split; [apply HI, H1|].
  intros e He. apply HE, (H2 e He).
Qed.

#[local] Instance only_index_preorder : PreOrder only_index.
Proof.
  split.
  - intros s. reflexivity.
  - intros a b c Hab Hbc. unfold only_index in *. congruence.
Qed.

Lemma only_index_self s s' :
  only_index s s' -> self s' = set_meas_list (meas_list (self s')) (self s).
Proof.
  unfold only_index. destruct (self s), (self s'). unfold set_meas_list. simpl.
  intros [= -> -> -> -> -> -> -> -> -> -> -> -> -> ->]. reflexivity.
Qed.

Lemma only_index_init_clean dir : ensures only_index any_exn (init_clean dir).
Proof.
  assert (Hloop : forall n, ensures only_index any_exn (clean_loop n 0)).
  { intros n. eapply ensures_mono; [| |apply (ensures_clean_loop n 0)].
    - intros s s' (_ & H & _). exact H.
    - intros e _. exact I. }
  unfold init_clean. ens_cursor. apply Hloop.
Qed.

Lemma only_index_init_load dir : ensures only_index any_exn (init_load dir).
Proof. unfold init_load. ens_cursor. Qed.

(** A successful finalization settles the cache location, may replace the
    working index, and sets the permutation; nothing else of the object
    changes. *)
Lemma init_dataset_Ok s s' :
  _init_dataset s = (Ok tt, s') ->
  exists l ids,
    self s' = set__ids (Some ids)
                (set_meas_list l (set_cache_dir (Some (cache_location (self s))) (self s))) /\
    ids ≡ₚ np_arange (length l) /\
    (shuffle (self s) = false -> ids = np_arange (length l)).
Proof.
  rewrite init_dataset_blocks. cbv zeta. set (s1 := mkState _ _).
  set (b := bool_decide _ && _). intros Hrun.
  apply bind_Ok in Hrun as ([] & s2 & Hbranch & Htail).
  assert (Hs2 : only_index s1 s2).
  { destruct b.
    - destruct (only_index_init_load (cache_location (self s)) s1) as [H _].
      rewrite Hbranch in H. exact H.
    - destruct (only_index_init_clean (cache_location (self s)) s1) as [H _].
      rewrite Hbranch in H. exact H. }
  apply only_index_self in Hs2.
  destruct (init_tail_run s2) as (ids & rg & Heq & Hperm & Hid & _).
  rewrite Heq in Htail. injection Htail as <-.
  exists (meas_list (self s2)), ids. cbn [self]. split; [|split].
  - rewrite Hs2 at 1. reflexivity.
  - exact Hperm.
  - intros Hsh. apply Hid. rewrite Hs2. exact Hsh.
Qed.

(** X9. Every object the constructor returns holds the arguments it was
    given, the wavelength axis [np.arange(lo, hi)], the references that
    [_read_reference] read, the cache location (the default
    [.spectre_cache/] when none was given), the cursor at 0, [num_meas]
    equal to the length of the filtered index, and a permutation of the
    positions of that index, the identity when shuffling is off. *)
Theorem constructor_postcondition (root : string) (t : Z) (sh : bool)
    (cd : option string) (thr : Q) (r : Z * Z) (c a : bool) (w w' : World) (o : SPECTRE) :
  __init__ root t sh cd thr r c a w = (Ok o, w') ->
  exists dark white l ids,
    fst (_read_reference (mkState w (blank root t sh cd thr r c a))) = Ok (dark, white) /\
    o = mkSPECTRE t r (np_arange2 (fst r) (snd r)) root
          (Some (default ".spectre_cache/" cd)) c thr a sh
          (Some ids) 0 dark white l (length l) /\
    ids ≡ₚ np_arange (length l) /\
    (sh = false -> ids = np_arange (length l)).
Proof.
  rewrite init_steps. cbv zeta.
  destruct (_read_reference _) as [[[dark white]|e] s1]; [|discriminate].
  destruct (_scan_root _) as [[l0|e] s2]; [|discriminate].
  destruct (_init_dataset _) as [[[]|e] s4] eqn:Hinit; [|discriminate].
  intros [= <- <-].
  apply init_dataset_Ok in Hinit as (l & ids & Hself & Hperm & Hid).
  exists dark, white, l, ids. split; [reflexivity|].
  rewrite Hself. cbn. split; [|split; [exact Hperm|exact Hid]].
  pose proof (Permutation_length Hperm) as Hlen.
  unfold np_arange in Hlen. rewrite length_seq in Hlen. rewrite Hlen.
  destruct cd; reflexivity.
Qed.

Lemma constructor_postcondition_witness :
  exists o w' dark white l ids,
    __init__ "data" 1400 false None (15 # 100) (450, 690)%Z false false (lab_world 6 3 [])
      = (Ok o, w') /\
    fst (_read_reference
           (mkState (lab_world 6 3 [])
              (blank "data" 1400 false None (15 # 100) (450, 690)%Z false false)))
      = Ok (dark, white) /\
    o = mkSPECTRE 1400 (450, 690)%Z (np_arange2 450 690) "data"
          (Some ".spectre_cache/") false (15 # 100) false false
          (Some ids) 0 dark white l (length l) /\
    ids ≡ₚ np_arange (length l) /\
    (false = false -> ids = np_arange (length l)).
Proof.
  destruct (__init__ "data" 1400 false None (15 # 100) (450, 690)%Z false false
              (lab_world 6 3 [])) as [[o|e] w'] eqn:Hrun;
    [|vm_compute in Hrun; discriminate].
  exists o, w'.
  destruct (constructor_postcondition "data" 1400 false None (15 # 100) (450, 690)%Z
              false false (lab_world 6 3 []) w' o Hrun)
    as (dark & white & l & ids & H).
  exists dark, white, l, ids. split; [reflexivity|exact H].
Defined.



(** ** The cache record *)

Lemma init_load_Ok dir s s' :
  init_load dir s = (Ok tt, s') ->
  exists l, fs (world s) !! cache_file dir = Some (Pickle l) /\
            meas_list (self s') = l /\ fs (world s') = fs (world s).
Proof.
  destruct (fs (world s) !! cache_file dir) as [n|] eqn:Hn.
  - destruct n as [names|arr|rows|l|];
      try (unfold init_load, bind, call, print, pickle_load, bind, modify, gets, raise;
           simpl; rewrite Hn; discriminate).
    rewrite (init_load_run dir s l Hn). intros [= <-]. exists l. repeat split.
  - unfold init_load, bind, call, print, pickle_load, bind, modify, gets, raise.
    simpl. rewrite Hn. discriminate.
Qed.

Lemma pickle_dump_Ok l p w w' :
  pickle_dump l p w = (Ok tt, w') -> fs w' = <[p := Pickle l]> (fs w).
Proof.
  unfold pickle_dump, bind, modify, gets, raise. simpl.
  destruct (fs w !! p) as [[]|]; simpl; try discriminate;
    (destruct (denied w p); simpl; [discriminate|]); intros [= <-]; reflexivity.
Qed.

Lemma call_self {A} (c : M World A) s r s' : call c s = (r, s') -> self s' = self s.
Proof. unfold call. destruct (c (world s)). intros [= _ <-]. reflexivity. Qed.

Lemma init_clean_Ok_cached dir s s' :
  cache (self s) = true ->
  init_clean dir s = (Ok tt, s') ->
  fs (world s') !! cache_file dir = Some (Pickle (meas_list (self s'))).
Proof.
  intros Hc Hrun. revert Hrun. unfold init_clean. intros Hrun.
  apply bind_Ok in Hrun as ([] & s1 & H1 & Hrun). apply call_self in H1.
  apply bind_Ok in Hrun as ([] & s2 & H2 & Hrun). apply call_self in H2.
  apply bind_Ok in Hrun as (l & s2' & Hl & Hrun). injection Hl as <- <-.
  apply bind_Ok in Hrun as ([] & s3 & Hloop & Hrun).
  apply bind_Ok in Hrun as (c & s3' & Hcs & Hrun). injection Hcs as <- <-.
  assert (Hc3 : cache (self s3) = true).
  { destruct (ensures_clean_loop (length (meas_list (self s2))) 0 s2) as [(_ & Ho & _) _].
    rewrite Hloop in Ho. cbn [snd] in Ho.
    change (cache (set_meas_list [] (self s3)) = true).
    rewrite Ho, H2, H1. exact Hc. }
  rewrite Hc3 in Hrun.
  apply bind_Ok in Hrun as ([] & s4 & Hprint & Hrun).
  apply bind_Ok in Hrun as (l & s4' & Hl & Hrun). injection Hl as <- <-.
  unfold call in Hrun.
  destruct (pickle_dump _ _ (world s4)) as [[[]|e] w5] eqn:Hdump; [|discriminate].
  injection Hrun as <-. cbn [world self].
  rewrite (pickle_dump_Ok _ _ _ _ Hdump). rewrite lookup_insert_eq.
  unfold call, print, modify in Hprint. injection Hprint as <-. reflexivity.
Qed.

(** X11. After a successful finalization with caching enabled the cache
    file holds exactly the filtered index the object works with, whether it
    was just computed or just loaded; and any later finalization with
    caching enabled at the same cache location over that file system
    succeeds with the same filtered index and leaves the file system as it
    is. *)
Theorem cache_round_trip (s s' : State) :
  cache (self s) = true ->
  _init_dataset s = (Ok tt, s') ->
  let file := cache_file (cache_location (self s)) in
  fs (world s') !! file = Some (Pickle (meas_list (self s'))) /\
  forall s2 : State,
    fs (world s2) = fs (world s') ->
    cache_location (self s2) = cache_location (self s) ->
    cache (self s2) = true ->
    exists s2', _init_dataset s2 = (Ok tt, s2') /\
                meas_list (self s2') = meas_list (self s') /\
                fs (world s2') = fs (world s').
Proof.
  intros Hc Hrun file.
  assert (Hrec : fs (world s') !! file = Some (Pickle (meas_list (self s')))).
  { revert Hrun. rewrite init_dataset_blocks. cbv zeta.
    set (dir := cache_location (self s)). set (s1 := mkState _ _).
    set (b := bool_decide _ && _). intros Hrun.
    apply bind_Ok in Hrun as ([] & s2 & Hbranch & Htail).
    destruct (init_tail_run s2) as (ids & rg & Heq & _).
    rewrite Heq in Htail. injection Htail as <-. cbn [world self].
    assert (H2 : fs (world s2) !! file = Some (Pickle (meas_list (self s2)))).
    { destruct b.
      - apply init_load_Ok in Hbranch as (l & Hl & <- & ->). exact Hl.
      - apply init_clean_Ok_cached in Hbranch; [exact Hbranch|exact Hc]. }
    destruct (shuffle (self s2)); exact H2. }
  split; [exact Hrec|]. intros s2 Hfs Hloc Hc2.
  rewrite init_dataset_blocks. cbv zeta. rewrite Hloc, Hfs. fold file.
  rewrite Hrec, Hc2.
  replace (bool_decide (is_Some (Some (Pickle (meas_list (self s'))))) && true) with true
    by (symmetry; apply andb_true_iff; split; [apply bool_decide_eq_true; eauto|reflexivity]).
  unfold bind at 1. rewrite (init_load_run _ _ (meas_list (self s'))).
  2:{ cbn [world fs log]. rewrite Hfs. exact Hrec. }
  match goal with |- context [init_tail ?st] =>
    destruct (init_tail_run st) as (ids & r & -> & _) end.
  eexists. split; [reflexivity|]. cbn [self world]. split; [reflexivity|].
  cbn. destruct (shuffle (self s2)); cbn; exact Hfs.
Qed.

Lemma cache_round_trip_witness :
  exists s', _init_dataset (lab_unclean 6 3 true) = (Ok tt, s') /\
    fs (world s') !! ".spectre_cache/dataset_cache.pickle"
      = Some (Pickle (meas_list (self s'))).
Proof.
  destruct (_init_dataset (lab_unclean 6 3 true)) as [[[]|e] s'] eqn:Hrun;
    [|vm_compute in Hrun; discriminate].
  exists s'. split; [reflexivity|].
  apply (cache_round_trip (lab_unclean 6 3 true) s' eq_refl Hrun).
Defined.

(** ** The candidate index holds no descriptor twice *)

Lemma os_path_join_inj root f g :
  startswith f "/" = false -> startswith g "/" = false ->
  os_path_join root f = os_path_join root g -> f = g.
Proof.
  unfold os_path_join. intros -> ->.
  destruct (String.eqb root "" || endswith root "/"); intros H.
  - apply (String.app_inj root), H.
  - apply (String.app_inj "/"), (String.app_inj root), H.
Qed.

Lemma NoDup_map_inj_on {A B} (f : A -> B) (l : list A) :
  (forall x y, x ∈ l -> y ∈ l -> f x = f y -> x = y) ->
  NoDup l -> NoDup (map f l).
Proof.
  intros Hinj Hl. change (NoDup (f <$> l)). apply NoDup_fmap_2_strong; assumption.
Qed.

Lemma elem_of_map {A B} (f : A -> B) (l : list A) y :
  y ∈ map f l <-> exists x, y = f x /\ x ∈ l.
Proof. apply (list_elem_of_fmap f l y). Qed.

Lemma elem_of_flat_map {A B} (f : A -> list B) (l : list A) y :
  y ∈ flat_map f l <-> exists x, x ∈ l /\ y ∈ f x.
Proof.
  rewrite list_elem_of_In, in_flat_map. split; intros (x & H1 & H2); exists x;
    rewrite ?list_elem_of_In in *; auto.
Qed.

Lemma NoDup_List_filter {A} (p : A -> bool) (l : list A) :
  NoDup l -> NoDup (List.filter p l).
Proof.
  induction 1 as [|x l Hx Hl IH]; simpl; [constructor|].
  destruct (p x); [|exact IH]. constructor; [|exact IH].
  intros Hin. apply Hx. apply list_elem_of_In in Hin. apply filter_In in Hin as [Hin _].
  apply list_elem_of_In, Hin.
Qed.

Lemma NoDup_pairs {A B C} (f : A -> B -> C) (xs : list A) (ys : list B) :
  (forall x x' y y', x ∈ xs -> x' ∈ xs -> y ∈ ys -> y' ∈ ys ->
                     f x y = f x' y' -> x = x' /\ y = y') ->
  NoDup xs -> NoDup ys -> NoDup (flat_map (fun x => map (f x) ys) xs).
Proof.
  intros Hinj Hxs Hys. induction Hxs as [|x xs Hx Hxs IH]; simpl; [constructor|].
  apply NoDup_app. split; [|split].
  - apply NoDup_map_inj_on; [|exact Hys].
    intros y y' Hy Hy' Heq. eapply Hinj; [left|left|exact Hy|exact Hy'|exact Heq].
  - intros z Hz Hz'. apply elem_of_map in Hz as (y & -> & Hy).
    apply elem_of_flat_map in Hz' as (x' & Hx' & Hz').
    apply elem_of_map in Hz' as (y' & Heq & Hy').
    destruct (Hinj x x' y y') as [-> _]; auto; [left|right; exact Hx'].
  - apply IH. intros a a' b b' Ha Ha'. apply Hinj; right; assumption.
Qed.

(** On a singular list without duplicates, the cross pairs, the squares and
    the singular descriptors are all distinct. *)
Lemma candidates_NoDup (L : list descriptor) :
  NoDup L -> Forall (fun d => snd d = None) L ->
  NoDup (L ++ cross_list L ++ square_list L).
Proof.
  intros HL Hnone.
  assert (Hfst : forall a b, a ∈ L -> b ∈ L -> fst a = fst b -> a = b).
  { intros [a1 a2] [b1 b2] Ha Hb. rewrite Forall_forall in Hnone.
    pose proof (Hnone _ Ha) as Ha2. pose proof (Hnone _ Hb) as Hb2.
    simpl in *. congruence. }
  set (h := length L / 2).
  pose proof HL as Hsplit. rewrite <- (take_drop h L) in Hsplit.
  apply NoDup_app in Hsplit as (Htake & Hdisj & Hdrop).
  assert (Htk : forall a, a ∈ take h L -> a ∈ L).
  { intros a Ha. rewrite <- (take_drop h L). apply elem_of_app. left. exact Ha. }
  assert (Hdr : forall a, a ∈ drop h L -> a ∈ L).
  { intros a Ha. rewrite <- (take_drop h L). apply elem_of_app. right. exact Ha. }
  apply NoDup_app. split; [exact HL|]. split.
  - intros d Hd Hd'. rewrite Forall_forall in Hnone. pose proof (Hnone _ Hd) as Hsnd.
    apply elem_of_app in Hd' as [Hd'|Hd'].
    + apply elem_of_flat_map in Hd' as (a & _ & Hd').
      apply elem_of_map in Hd' as (b & -> & _). discriminate.
    + apply elem_of_map in Hd' as (b & -> & _). discriminate.
  - apply NoDup_app. split; [|split].
    + unfold cross_list. fold h. apply NoDup_pairs; [|exact Htake|exact Hdrop].
      intros a a' b b' Ha Ha' Hb Hb' [= H1 H2]. split; apply Hfst; auto.
    + intros d Hd Hd'. unfold cross_list in Hd. fold h in Hd.
      apply elem_of_flat_map in Hd as (a & Ha & Hd).
      apply elem_of_map in Hd as (b & -> & Hb).
      apply elem_of_map in Hd' as (m & [= H1 H2] & Hm).
      assert (a = b) as -> by (apply Hfst; auto; congruence).
      exact (Hdisj _ Ha Hb).
    + unfold square_list. apply NoDup_map_inj_on; [|exact HL].
      intros a b Ha Hb [= H1 _]. apply Hfst; assumption.
Qed.

(** X12. When the root lists no name twice and no name is an absolute
    path, which a directory listing never holds, the candidate index holds
    no descriptor twice, with or without augmentation; so the [remove] of
    the cleaning pass removes the descriptor under examination. *)
Theorem scan_root_no_duplicates (s : State) (names : list string) :
  fs (world s) !! root_dir (self s) = Some (Dir names) ->
  NoDup names ->
  Forall (fun f => startswith f "/" = false) names ->
  exists l s', _scan_root s = (Ok l, s') /\ NoDup l.
Proof.
  intros Hroot Hnames Hrel. rewrite (scan_root_run s names Hroot). cbv zeta.
  set (L := singular_list (root_dir (self s)) names).
  assert (HL : NoDup L).
  { unfold L, singular_list.
    assert (Hsub : forall f, f ∈ List.filter is_measurement names -> f ∈ names).
    { intros f Hf. apply list_elem_of_In in Hf. apply filter_In in Hf as [Hf _].
      apply list_elem_of_In, Hf. }
    apply NoDup_map_inj_on.
    - intros f g Hf Hg [= Heq]. rewrite Forall_forall in Hrel.
      eapply os_path_join_inj; [apply Hrel, Hsub, Hf|apply Hrel, Hsub, Hg|exact Heq].
    - apply NoDup_List_filter, Hnames. }
  assert (Hnone : Forall (fun d => snd d = None) L).
  { unfold L, singular_list. apply Forall_map_all. intros f. reflexivity. }
  eexists _, _. split; [reflexivity|].
  destruct (augment (self s)); [apply candidates_NoDup; assumption|exact HL].
Qed.

Lemma scan_root_no_duplicates_witness :
  exists l s',
    _scan_root (mkState (lab_world 6 3 [])
                  (blank "data" 1400 false None (15 # 100) (450, 690)%Z false true))
      = (Ok l, s') /\ NoDup l.
Proof.
  apply (scan_root_no_duplicates
           (mkState (lab_world 6 3 [])
              (blank "data" 1400 false None (15 # 100) (450, 690)%Z false true))
           ["Dark"; ".DS_Store"; "A"; "White"; "B"]).
  - vm_compute. reflexivity.
  - apply (bool_decide_unpack _). vm_compute. reflexivity.
  - repeat constructor.
Defined.

(** ** What the cleaning pass removes *)

(** The mean signal depends on the files and on the references only. *)
Lemma mean_signal_stable o o' w w' meas :
  fs w' = fs w -> dark_meas o' = dark_meas o -> white_meas o' = white_meas o ->
  mean_signal o' w' meas = mean_signal o w meas.
Proof.
  intros Hfs Hd Hw. unfold mean_signal. rewrite Hd, Hw.
  assert (Hrd : forall p, fst (read_spectrum p default_lamb_range w')
                          = fst (read_spectrum p default_lamb_range w)).
  { intros p. apply respects_read_spectrum. exact Hfs. }
  destruct meas as [a [b|]]; rewrite ?Hrd; reflexivity.
Qed.

(** When the mean signal cannot be computed the iteration raises and the
    object is as before. *)
Lemma clean_step_raises meas s e :
  mean_signal (self s) (world s) meas = Raise e ->
  self (snd (clean_step meas s)) = self s.
Proof.
  destruct s as [w o]. destruct meas as [a [b|]]; cbn [self world];
    unfold mean_signal, clean_step; intros Hm.
  - destruct (read_spectrum_run a default_lamb_range w) as (w1 & Ha & Hd1).
    destruct (read_spectrum_run b default_lamb_range w1) as (w2 & Hb & Hd2).
    assert (Hb' : fst (read_spectrum b default_lamb_range w1)
                  = fst (read_spectrum b default_lamb_range w)).
    { apply respects_read_spectrum. apply Hd1. }
    rewrite Hb' in Hb. clear Hb'.
    unfold bind, attr, gets, call, lift, assign, modify, ret. cbn [self world].
    rewrite Ha. cbn [self world].
    destruct (fst (read_spectrum a default_lamb_range w)) as [sa|]; [|reflexivity].
    unfold rbind at 2 in Hm.
    destruct (normalize_array sa _ _) as [na|] eqn:Hna; [|reflexivity].
    unfold rbind at 1 in Hm.
    rewrite Hb. cbn [self world].
    destruct (fst (read_spectrum b default_lamb_range w)) as [sb|]; [|reflexivity].
    unfold rbind at 2 in Hm.
    destruct (normalize_array sb _ _) as [nb|] eqn:Hnb; [|reflexivity].
    unfold rbind at 1 in Hm.
    destruct (np_mul na nb) as [sp|] eqn:Hsp; [discriminate|reflexivity].
  - destruct (read_spectrum_run a default_lamb_range w) as (w1 & Ha & Hd1).
    unfold bind, attr, gets, call, lift, assign, modify, ret. cbn [self world].
    rewrite Ha. cbn [self world].
    destruct (fst (read_spectrum a default_lamb_range w)) as [sa|]; [|reflexivity].
    unfold rbind at 2 in Hm.
    destruct (normalize_array sa _ _) as [na|] eqn:Hna; [discriminate|reflexivity].
Qed.

(** One iteration either leaves the object alone or removes the descriptor
    it examined, and then only because its mean signal was below the
    threshold. *)
Lemma clean_step_cases meas s :
  same_disk (world s) (world (snd (clean_step meas s))) /\
  (self (snd (clean_step meas s)) = self s \/
   exists m l',
     mean_signal (self s) (world s) meas = Ok m /\
     float_lt m (clean_threshold (self s)) = true /\
     list_remove meas (meas_list (self s)) = Ok l' /\
     clean_step meas s
       = (Ok tt, mkState (world (snd (clean_step meas s))) (set_meas_list l' (self s)))).
Proof.
  split; [apply (ensures_clean_step meas s)|].
  destruct (mean_signal (self s) (world s) meas) as [m|e] eqn:Hm.
  - destruct (clean_step_decides meas s m Hm) as (w' & _ & ->).
    destruct (float_lt m (clean_threshold (self s))) eqn:Hlt; [|left; reflexivity].
    destruct (list_remove meas (meas_list (self s))) as [l'|e] eqn:Hrm; [|left; reflexivity].
    right. exists m, l'. repeat split; assumption.
  - left. eapply clean_step_raises, Hm.
Qed.

Lemma list_remove_sublist x l l' : list_remove x l = Ok l' -> l' `sublist_of` l.
Proof.
  revert l'. induction l as [|y l IH]; intros l'; simpl; [discriminate|].
  case_match; [intros [= <-]; apply sublist_cons, reflexivity|].
  unfold rbind. case_match; [|discriminate].
  intros [= <-]. apply sublist_skip, IH. reflexivity.
Qed.

Lemma list_remove_elem x l l' d :
  list_remove x l = Ok l' -> d ∈ l -> d ∈ l' \/ d = x.
Proof.
  revert l'. induction l as [|y l IH]; intros l'; simpl; [discriminate|].
  case_match.
  - intros [= <-] [->|Hd]%elem_of_cons; [right; assumption|left; exact Hd].
  - unfold rbind. case_match; [|discriminate].
    intros [= <-] [->|Hd]%elem_of_cons; [left; left|].
    destruct (IH _ eq_refl Hd) as [H'|H']; [left; right; exact H'|right; exact H'].
Qed.

Lemma clean_loop_unfold fuel k s :
  clean_loop (S fuel) k s =
    match meas_list (self s) !! k with
    | None => (Ok tt, s)
    | Some meas =>
        match clean_step meas s with
        | (Ok _, s1) => clean_loop fuel (S k) s1
        | (Raise e, s1) => (Raise e, s1)
        end
    end.
Proof.
  simpl. unfold bind at 1, attr at 1, gets at 1.
  destruct (meas_list (self s) !! k) as [meas|]; [|reflexivity].
  unfold bind. destruct (clean_step meas s) as [[[]|e] s1]; reflexivity.
Qed.

(** Whatever position the pass starts from and however it ends, it leaves a
    sublist of the index, and what it dropped had a mean signal below the
    threshold. *)
Lemma clean_loop_sound (fuel : nat) : forall (k : nat) (s : State),
  let s' := snd (clean_loop fuel k s) in
  meas_list (self s') `sublist_of` meas_list (self s) /\
  forall d, d ∈ meas_list (self s) -> d ∉ meas_list (self s') ->
    exists m, mean_signal (self s) (world s) d = Ok m /\
              float_lt m (clean_threshold (self s)) = true.
Proof.
  induction fuel as [|fuel IH]; intros k s; cbn zeta.
  { simpl. split; [reflexivity|]. intros d Hd Hd'. exact (False_ind _ (Hd' Hd)). }
  rewrite clean_loop_unfold.
  destruct (meas_list (self s) !! k) as [meas|] eqn:Hk.
  2:{ simpl. split; [reflexivity|]. intros d Hd Hd'. exact (False_ind _ (Hd' Hd)). }
  destruct (clean_step_cases meas s) as [(Hfs & _) Hcases].
  destruct (clean_step meas s) as [r s1] eqn:Hstep. cbn [fst snd] in *.
  assert (Hone : meas_list (self s1) `sublist_of` meas_list (self s) /\
    dark_meas (self s1) = dark_meas (self s) /\
    white_meas (self s1) = white_meas (self s) /\
    clean_threshold (self s1) = clean_threshold (self s) /\
    forall d, d ∈ meas_list (self s) -> d ∉ meas_list (self s1) ->
      exists m, mean_signal (self s) (world s) d = Ok m /\
                float_lt m (clean_threshold (self s)) = true).
  { destruct Hcases as [->|(m & l' & Hm & Hlt & Hrm & Heq)].
    - split; [reflexivity|]. repeat split. intros d Hd Hd'. exact (False_ind _ (Hd' Hd)).
    - injection Heq as -> ->. cbn [self meas_list set_meas_list].
      split; [eapply list_remove_sublist, Hrm|]. repeat split.
      intros d Hd Hd'. destruct (list_remove_elem _ _ _ d Hrm Hd) as [H'| ->];
        [contradiction|]. exists m. split; assumption. }
  destruct Hone as (Hsub & Hdark & Hwhite & Hthr & Hdrop).
  destruct r as [[]|e]; cbn [snd]; [|split; assumption].
  destruct (IH (S k) s1) as [Hsub' Hdrop']. cbv zeta in Hsub', Hdrop'.
  split; [etransitivity; eassumption|].
  intros d Hd Hd'.
  destruct (decide (d ∈ meas_list (self s1))) as [Hin|Hout]; [|apply Hdrop; assumption].
  destruct (Hdrop' d Hin Hd') as (m & Hm & Hlt).
  exists m. rewrite <- Hthr. split; [|exact Hlt].
  rewrite <- Hm. symmetry. apply mean_signal_stable; assumption.
Qed.

(** X13. The cleaning pass drops a descriptor only when its mean signal was
    computed and is strictly below the threshold: whatever position it
    starts from and whether or not it ends with an error, a descriptor of
    the index that is no longer there afterwards is weak. *)
Theorem cleaning_removes_only_weak (fuel k : nat) (s : State) (d : descriptor) :
  d ∈ meas_list (self s) ->
  d ∉ meas_list (self (snd (clean_loop fuel k s))) ->
  weak (self s) (world s) d = true.
Proof.
  intros Hd Hd'. destruct (clean_loop_sound fuel k s) as [_ Hdrop].
  destruct (Hdrop d Hd Hd') as (m & Hm & Hlt). unfold weak. rewrite Hm. exact Hlt.
Qed.

Lemma cleaning_removes_only_weak_witness :
  weak (self (lab_unclean 2 2 false)) (world (lab_unclean 2 2 false)) ("data/A", None) = true.
Proof.
  apply (cleaning_removes_only_weak 2 0 (lab_unclean 2 2 false) ("data/A", None)).
  - apply (bool_decide_unpack _). vm_compute. reflexivity.
  - apply (bool_decide_unpack _). vm_compute. reflexivity.
Defined.

(** X14. The cleaning pass only removes: the index it leaves is a sublist
    of the one it started with, so the descriptors that remain keep their
    order. *)
Theorem cleaning_keeps_order (fuel k : nat) (s : State) :
  meas_list (self (snd (clean_loop fuel k s))) `sublist_of` meas_list (self s).
Proof. apply (clean_loop_sound fuel k s). Qed.


Lemma list_remove_middle d pre rest :
  d ∉ pre -> list_remove d (pre ++ d :: rest)%list = Ok (pre ++ rest)%list.
Proof.
  induction pre as [|y pre IH]; simpl; intros Hd.
  - rewrite decide_True by reflexivity. reflexivity.
  - apply not_elem_of_cons in Hd as [Hne Hd].
    rewrite decide_False by congruence. rewrite (IH Hd). reflexivity.
Qed.

Lemma clean_loop_past_end fuel k s :
  length (meas_list (self s)) <= k -> clean_loop fuel k s = (Ok tt, s).
Proof.
  intros Hk. destruct fuel as [|fuel]; [reflexivity|].
  rewrite clean_loop_unfold, (lookup_ge_None_2 _ _ Hk). reflexivity.
Qed.

(** With no duplicates, no read failure and no two weak neighbours, the
    pass from position [length pre] on keeps [pre] and filters the rest. *)
Lemma clean_loop_exact (o0 : SPECTRE) (w0 : World) (fuel : nat) : forall pre rest s,
  fs (world s) = fs w0 ->
  dark_meas (self s) = dark_meas o0 ->
  white_meas (self s) = white_meas o0 ->
  clean_threshold (self s) = clean_threshold o0 ->
  meas_list (self s) = (pre ++ rest)%list ->
  length rest <= fuel ->
  NoDup (pre ++ rest)%list ->
  Forall (fun d => is_ok (mean_signal o0 w0 d) = true) rest ->
  no_neighbours (weak o0 w0) rest ->
  exists s', clean_loop fuel (length pre) s = (Ok tt, s') /\
    meas_list (self s') = (pre ++ List.filter (fun d => negb (weak o0 w0 d)) rest)%list /\
    fs (world s') = fs (world s).
Proof.
  induction fuel as [|fuel IH]; intros pre rest s Hfs Hdark Hwhite Hthr Hl Hlen Hnd Hok Hnn.
  { destruct rest; [|simpl in Hlen; lia]. exists s. simpl. repeat split. exact Hl. }
  destruct rest as [|d rest].
  { exists s. rewrite clean_loop_past_end by (rewrite Hl, length_app; simpl; lia).
    simpl. repeat split. exact Hl. }
  rewrite clean_loop_unfold, Hl, list_lookup_middle by reflexivity.
  apply Forall_cons_1 in Hok as [Hd Hok].
  assert (Hmean : mean_signal (self s) (world s) d = mean_signal o0 w0 d)
    by (apply mean_signal_stable; assumption).
  destruct (mean_signal o0 w0 d) as [m|] eqn:Hm0; [|discriminate].
  destruct (clean_step_decides d s m Hmean) as (w' & (Hfs' & _) & ->).
  assert (Hweak : weak o0 w0 d = float_lt m (clean_threshold (self s))).
  { unfold weak. rewrite Hm0, Hthr. reflexivity. }
  destruct (float_lt m (clean_threshold (self s))) eqn:Hlt.
  - (* weak: removed, and the next one is passed over *)
    rewrite Hl, list_remove_middle.
    2:{ apply NoDup_app in Hnd as (_ & Hdisj & _). intros Hin.
        apply (Hdisj d Hin). left. }
    set (s1 := mkState w' (set_meas_list (pre ++ rest)%list (self s))).
    destruct rest as [|d' rest].
    + exists s1. rewrite clean_loop_past_end
        by (subst s1; cbn; rewrite length_app; simpl; lia).
      split; [reflexivity|]. simpl. rewrite Hweak. simpl. split; [reflexivity|].
      exact Hfs'.
    + destruct Hnn as [Hnext Hnn]. specialize (Hnext Hweak).
      apply Forall_cons_1 in Hok as [Hd' Hok].
      destruct (IH (pre ++ [d'])%list rest s1) as (s' & Hrun & Hres & Hfs'');
        try assumption.
      * subst s1. cbn. congruence.
      * subst s1. cbn. rewrite <- app_assoc. reflexivity.
      * simpl in Hlen. lia.
      * rewrite <- app_assoc. simpl.
        refine (sublist_NoDup _ _ Hnd _).
        apply sublist_app; [reflexivity|]. apply sublist_cons. reflexivity.
      * destruct rest; [exact I|]. apply Hnn.
      * exists s'. rewrite length_app, Nat.add_1_r in Hrun. split; [exact Hrun|].
        rewrite Hres. simpl. rewrite Hweak, Hnext. simpl.
        rewrite <- app_assoc. split; [reflexivity|].
        rewrite Hfs''. subst s1. cbn. exact Hfs'.
  - (* kept *)
    set (s1 := mkState w' (self s)).
    destruct (IH (pre ++ [d])%list rest s1) as (s' & Hrun & Hres & Hfs'');
      try assumption.
    * subst s1. cbn. congruence.
    * subst s1. cbn. rewrite Hl, <- app_assoc. reflexivity.
    * simpl in Hlen. lia.
    * rewrite <- app_assoc. exact Hnd.
    * destruct rest; [exact I|]. apply Hnn.
    * exists s'. rewrite length_app, Nat.add_1_r in Hrun. split; [exact Hrun|].
      rewrite Hres. simpl. rewrite Hweak. simpl.
      rewrite <- app_assoc. split; [reflexivity|].
      rewrite Hfs''. subst s1. cbn. exact Hfs'.
Qed.

(** X15. If the index holds no descriptor twice, every mean signal can be
    computed and no weak descriptor is directly followed by another weak
    one, the cleaning pass succeeds and leaves exactly the descriptors that
    are not weak, in their order.  A descriptor that follows a removed one
    is passed over without being examined, which is harmless exactly
    because it is not weak. *)
Theorem cleaning_exact_without_weak_neighbours (s : State) :
  NoDup (meas_list (self s)) ->
  Forall (fun d => is_ok (mean_signal (self s) (world s) d) = true) (meas_list (self s)) ->
  no_neighbours (weak (self s) (world s)) (meas_list (self s)) ->
  exists s',
    clean_loop (length (meas_list (self s))) 0 s = (Ok tt, s') /\
    meas_list (self s')
      = List.filter (fun d => negb (weak (self s) (world s) d)) (meas_list (self s)).
Proof.
  intros Hnd Hok Hnn.
  destruct (clean_loop_exact (self s) (world s) (length (meas_list (self s)))
              [] (meas_list (self s)) s) as (s' & Hrun & Hres & _);
    try reflexivity; try assumption.
  exists s'. split; [exact Hrun|exact Hres].
Qed.

Lemma cleaning_exact_without_weak_neighbours_witness :
  exists s',
    clean_loop 2 0 (lab_unclean 2 6 false) = (Ok tt, s') /\
    meas_list (self s') = [("data/B", None)].
Proof.
  destruct (cleaning_exact_without_weak_neighbours (lab_unclean 2 6 false))
    as (s' & Hrun & Hres).
  - apply (bool_decide_unpack _). vm_compute. reflexivity.
  - repeat constructor.
  - simpl. split; [intros _; vm_compute; reflexivity|exact I].
  - exists s'. split; [exact Hrun|]. rewrite Hres. vm_compute. reflexivity.
Defined.

(** ** The order of the reads *)

(** X16. [read_measurement] loads the frame file first and opens the
    spectrum file only when the frame file held an array; it makes no other
    call. *)
Theorem read_measurement_opens_frame_first (folder : string) (t : Z) (r : Z * Z) (w : World) :
  let frame_file := os_path_join folder (pretty t +:+ "_frame.npy") in
  let spectrum_file := os_path_join folder "spectrum.csv" in
  trace (snd (read_measurement folder t r w)) =
    (trace w ++ call_np_load frame_file ::
       match fs w !! frame_file with
       | Some (Npy _) => [call_read_csv spectrum_file]
       | _ => []
       end)%list.
Proof.
  cbv zeta. unfold read_measurement, read_frame, read_spectrum, np_load, pd_read_csv.
  unfold bind, modify, gets, ret, raise, lift. simpl.
  destruct (fs w !! os_path_join folder (pretty t +:+ "_frame.npy")) as [[]|]; simpl;
    try reflexivity.
  destruct (fs w !! os_path_join folder "spectrum.csv") as [[]|]; simpl;
    rewrite <- ?app_assoc; try reflexivity.
  destruct (df_loc _ _ _); simpl; rewrite <- ?app_assoc; reflexivity.
Qed.

(** ** An augmented sample is the product of its two samples *)

Lemma respects_same_files_call {A} (c : M World A) :
  respects (fun w1 w2 => fs w1 = fs w2) c -> respects same_files (call c).
Proof.
  intros Hc s1 s2 [Hfs Hself]. unfold call. destruct (Hc (world s1) (world s2) Hfs) as [Hr Hw].
  destruct (c (world s1)) as [r1 w1], (c (world s2)) as [r2 w2]. simpl in *.
  split; [exact Hr|]. split; [exact Hw|exact Hself].
Qed.

Lemma respects_same_files_singular path :
  respects same_files (_read_meas_file_singular path).
Proof.
  unfold _read_meas_file_singular, _normalize_measurement.
  repeat first
    [ apply respects_ret | apply respects_raise | apply respects_lift
    | apply respects_same_files_call, respects_fs_read_measurement
    | apply respects_gets; intros ? ? [_ Hself_eq]; rewrite Hself_eq; reflexivity
    | apply respects_bind; [|intros ?]
    | progress case_match ].
Qed.



(** ** The first call of [__len__] *)

(** X18. The first call of [__len__] finalizes the dataset: when it
    succeeds the permutation exists, the number returned is the length of
    the filtered index, the cursor has not moved, and calling [__len__]
    again returns the same number and changes nothing. *)
Theorem first_len_finalizes (s s' : State) (n : nat) :
  _ids (self s) = None ->
  __len__ s = (Ok n, s') ->
  finalized (self s') /\
  n = length (meas_list (self s')) /\
  i (self s') = i (self s) /\
  __len__ s' = (Ok n, s').
Proof.
  intros Hnone Hrun. revert Hrun. unfold __len__ at 1.
  unfold bind at 1, attr at 1, gets at 1. rewrite Hnone. cbv iota.
  intros Hrun. apply bind_Ok in Hrun as ([] & s1 & Hinit & Hrun).
  apply init_dataset_finalizes in Hinit as [Hfin Hi].
  unfold bind, attr, gets, ret in Hrun. injection Hrun as <- <-.
  split; [exact Hfin|]. rewrite (len_finalized _ Hfin).
  unfold finalized in Hfin. destruct (_ids (self s1)) as [ids|]; [|contradiction].
  simpl. repeat split; try assumption; rewrite Hfin; reflexivity.
Qed.

Lemma first_len_finalizes_witness :
  exists n s',
    __len__ (lab_unclean 6 3 false) = (Ok n, s') /\
    finalized (self s') /\
    n = length (meas_list (self s')) /\
    i (self s') = i (self (lab_unclean 6 3 false)) /\
    __len__ s' = (Ok n, s').
Proof.
  destruct (__len__ (lab_unclean 6 3 false)) as [[n|e] s'] eqn:Hrun;
    [|vm_compute in Hrun; discriminate].
  exists n, s'. split; [reflexivity|].
  apply (first_len_finalizes (lab_unclean 6 3 false) s' n eq_refl Hrun).
Defined.
